(** * Matrix-factorisation rating prediction: a shallow embedding

    The development follows [src/movie_rating_prediction.py]:
    the identifier encoder ([proc_col], [encode_new_data]), the sparse
    matrix builder ([df2matrix]), the cost and gradient computations
    ([cost], [gradient]) and the optimiser ([gradient_descent]).

    Conventions.
    - A Python exception is a value of [exn]; a computation that may raise
      returns a [result].
    - A pandas column is a list; a frame carries its row labels, because
      [Series.__getitem__] with an integer key is label based.
    - A numpy matrix is a list of rows.  Arithmetic on entries goes through
      the interface [Arith], which fixes the operations and assumes no law,
      so every statement proved for all instances holds for binary64
      arithmetic as well as for exact rationals.
    - Arrays that the caller can observe after a call live in a store
      indexed by references; temporaries are plain values. *)

From Stdlib Require Import ZArith QArith Qcanon Floats Lia.
From stdpp Require Import base decidable option list functions gmap sets.

Set Default Proof Using "Type".
Open Scope Z_scope.

(** stdpp's solvers clear hypotheses by name, and say so when one is gone. *)
#[local] Set Warnings "-clear-no-such-hyp".

(** ** Exceptions and fallible computations *)

Inductive exn : Set :=
| IndexError
| KeyError
| ValueError.

Inductive result (A : Type) : Type :=
| Ok (a : A)
| Raise (e : exn).

Arguments Ok {A} a.
Arguments Raise {A} e.

#[global] Instance result_ret : MRet result := fun _ a => Ok a.
#[global] Instance result_bind : MBind result := fun _ _ f m =>
  match m with
  | Ok a => f a
  | Raise e => Raise e
  end.
#[global] Instance result_fmap : FMap result := fun _ _ f m =>
  match m with
  | Ok a => Ok (f a)
  | Raise e => Raise e
  end.

(** ** Identifier encoder ([proc_col], [encode_data], [encode_new_data]) *)

Section Encoder.
Context {Id : Type} `{Countable Id}.

(** [col.unique()]: the distinct values, in order of first appearance.
    [seen] is the hash table of values met so far. *)
Fixpoint unique_aux (seen : gset Id) (col : list Id) : list Id :=
  match col with
  | [] => []
  | x :: rest =>
      if decide (x ∈ seen) then unique_aux seen rest
      else x :: unique_aux ({[x]} ∪ seen) rest
  end.

Definition unique (col : list Id) : list Id := unique_aux ∅ col.

(** [enumerate(uniq)], counting from [k]. *)
Fixpoint enumerate_from {A} (k : nat) (l : list A) : list (nat * A) :=
  match l with
  | [] => []
  | x :: rest => (k, x) :: enumerate_from (S k) rest
  end.

Definition enumerate {A} (l : list A) : list (nat * A) := enumerate_from 0 l.

(** [{o:i for i,o in ...}]: pairs are stored left to right, a later pair
    replaces an earlier one with the same key. *)
Definition dict_comp (m0 : gmap Id Z) (kvs : list (nat * Id)) : gmap Id Z :=
  foldl (fun m p => <[p.2 := Z.of_nat p.1]> m) m0 kvs.

(** [name2idx[x]]: a missing key raises. *)
Definition dict_getitem (m : gmap Id Z) (x : Id) : result Z :=
  match m !! x with
  | Some i => Ok i
  | None => Raise KeyError
  end.

(** [proc_col(col)] returns [name2idx], the encoded column and
    [len(uniq)]. *)
Definition proc_col (col : list Id) : result (gmap Id Z * list Z * Z) :=
  let uniq := unique col in
  let name2idx := dict_comp ∅ (enumerate uniq) in
  enc ← mapM (dict_getitem name2idx) col;
  Ok (name2idx, enc, Z.of_nat (length uniq)).

(** [Series.map(dict)]: a key absent from the dict gives a missing value. *)
Definition series_map (m : gmap Id Z) (col : list Id) : list (option Z) :=
  (fun x => m !! x) <$> col.

(** [Series.fillna(v)].  When a value was missing pandas holds the column
    as float64, so the indices come back as 0.0, 1.0, ... and -1.0; the
    model keeps their numeric value. *)
Definition fillna (v : Z) (s : list (option Z)) : list Z :=
  (fun o => default v o) <$> s.

(** The two statements of [encode_new_data] that encode one column. *)
Definition apply_encoding (m : gmap Id Z) (col : list Id) : list Z :=
  fillna (-1) (series_map m col).

End Encoder.

(** ** Frames *)

(** A frame with the columns the program reads.  [df_index] holds the row
    labels; [len(df)] is their number.  The embedding covers frames whose
    columns all have [len(df)] entries and whose labels are pairwise
    distinct ([wf_frame]); a frame fresh from [read_csv] carries the labels
    [0 .. len-1] ([default_index]).  The identifier columns of a
    [DataFrame Z F] are integer typed: these are the frames whose columns
    numpy accepts as indices. *)
Record DataFrame (I F : Type) : Type := mkFrame {
  df_index : list Z;
  userId : list I;
  movieId : list I;
  rating : list F
}.

Arguments mkFrame {I F} _ _ _ _.
Arguments df_index {I F} _.
Arguments userId {I F} _.
Arguments movieId {I F} _.
Arguments rating {I F} _.

Definition len {I F} (df : DataFrame I F) : nat := length (df_index df).

Definition wf_frame {I F} (df : DataFrame I F) : Prop :=
  length (userId df) = len df /\
  length (movieId df) = len df /\
  length (rating df) = len df /\
  NoDup (df_index df).

Definition default_index {I F} (df : DataFrame I F) : Prop :=
  df_index df = seqZ 0 (Z.of_nat (len df)).

Section EncodeFrames.
Context {Id : Type} `{Countable Id} {F : Type}.

(** [encode_data(df)]: both identifier columns are replaced by their
    encodings. *)
Definition encode_data (df : DataFrame Id F) : result (DataFrame Z F * Z * Z) :=
  '(user2idx, users, num_users) ← proc_col (userId df);
  '(movie2idx, movies, num_movies) ← proc_col (movieId df);
  Ok (mkFrame (df_index df) users movies (rating df), num_users, num_movies).

(** [encode_new_data(df_val, df_train)]: the maps are built from the
    columns of [df_train] and applied to those of [df_val]. *)
Definition encode_new_data (df_val df_train : DataFrame Id F)
  : result (DataFrame Z F) :=
  '(user2idx, _, _) ← proc_col (userId df_train);
  '(movie2idx, _, _) ← proc_col (movieId df_train);
  Ok (mkFrame (df_index df_val)
        (apply_encoding user2idx (userId df_val))
        (apply_encoding movie2idx (movieId df_val))
        (rating df_val)).

End EncodeFrames.

(** ** Arithmetic on matrix entries *)

(** The operations numpy applies to float64 entries.  [of_int] is the
    conversion of a Python int, [of_lit] the value of a decimal literal. *)
Class Arith (F : Type) : Type := {
  of_int : Z -> F;
  of_lit : Q -> F;
  fadd : F -> F -> F;
  fsub : F -> F -> F;
  fmul : F -> F -> F;
  fdiv : F -> F -> F
}.

Definition fzero {F} `{Arith F} : F := of_int 0.

(** Exact rational arithmetic. *)
#[global] Instance Qc_arith : Arith Qc := {|
  of_int z := Q2Qc (inject_Z z);
  of_lit q := Q2Qc q;
  fadd := Qcplus;
  fsub := Qcminus;
  fmul := Qcmult;
  fdiv := Qcdiv
|}.

(** IEEE 754 binary64, the arithmetic of numpy's float64.  The conversion
    is exact below 2^53 and needs the argument below 2^63; a literal [p/q]
    with [p] and [q] below 2^53 is the correctly rounded quotient. *)
Definition float_of_Z (z : Z) : float :=
  match z with
  | Z0 => PrimFloat.zero
  | Zpos _ => PrimFloat.of_uint63 (Uint63.of_Z z)
  | Zneg p => PrimFloat.opp (PrimFloat.of_uint63 (Uint63.of_Z (Zpos p)))
  end.

#[global] Instance float_arith : Arith float := {|
  of_int := float_of_Z;
  of_lit q := PrimFloat.div (float_of_Z (Qnum q)) (float_of_Z (Zpos (Qden q)));
  fadd := PrimFloat.add;
  fsub := PrimFloat.sub;
  fmul := PrimFloat.mul;
  fdiv := PrimFloat.div
|}.

(** ** Matrices, sparse matrices, cost and gradient
       ([df2matrix], [cost], [gradient]) *)

(** Loop over a list in the [result] monad ([for x in xs: acc = f(acc, x)]). *)
Fixpoint foldR {A B} (f : B -> A -> result B) (b : B) (l : list A) : result B :=
  match l with
  | [] => Ok b
  | x :: rest => b' ← f b x; foldR f b' rest
  end.

(** [a[i]] on the first axis of an array with [n] rows: a negative index
    counts from the end, anything outside [-n, n) raises. *)
Definition np_index (n : nat) (i : Z) : result nat :=
  if decide (0 <= i < Z.of_nat n) then Ok (Z.to_nat i)
  else if decide (- Z.of_nat n <= i < 0) then Ok (Z.to_nat (Z.of_nat n + i))
  else Raise IndexError.

(** [series[key]] on a Series with integer row labels: the entry whose
    label is [key]; a label that is absent raises. *)
Definition series_getitem {A} (labels : list Z) (values : list A) (key : Z)
  : result A :=
  match list_find (fun l => l = key) labels with
  | Some (pos, _) =>
      match values !! pos with
      | Some v => Ok v
      | None => Raise KeyError
      end
  | None => Raise KeyError
  end.

(** A sparse matrix: its shape and the entries it stores. *)
Record csc_matrix (F : Type) : Type := mkCsc {
  shape : Z * Z;
  entries : gmap (Z * Z) F
}.

Arguments mkCsc {F} _ _.
Arguments shape {F} _.
Arguments entries {F} _.

Section Numeric.
Context {F : Type} `{Arith F}.

(** A vector is a list of entries, a matrix the list of its rows. *)
Abbreviation row := (list F) (only parsing).
Abbreviation matrix := (list (list F)) (only parsing).

(** A matrix of [n] rows and [K] columns. *)
Definition rect (n K : nat) (A : matrix) : Prop :=
  length A = n /\ Forall (fun r => length r = K) A.

(** [A[i]] read, and [A[i] = r] written. *)
Definition getrow (A : matrix) (i : Z) : result row :=
  k ← np_index (length A) i;
  match A !! k with
  | Some r => Ok r
  | None => Raise IndexError
  end.

Definition setrow (A : matrix) (i : Z) (r : row) : result matrix :=
  k ← np_index (length A) i;
  Ok (<[k := r]> A).

(** [A[idx]] for an array of indices. *)
Definition take_rows (A : matrix) (idx : list Z) : result (list row) :=
  mapM (getrow A) idx.

(** [np.zeros_like(A)] *)
Definition zeros_like (A : matrix) : matrix :=
  (fun r : row => (fun _ => fzero) <$> r) <$> A.

(** Entrywise operations on rows and matrices of equal shapes; a scalar
    is applied to every entry. *)
Definition row_add (r s : row) : row := zip_with fadd r s.
Definition row_scale (c : F) (r : row) : row := fmul c <$> r.

Definition mat_add (A B : matrix) : matrix := zip_with (zip_with fadd) A B.
Definition mat_sub (A B : matrix) : matrix := zip_with (zip_with fsub) A B.
Definition mat_scale (c : F) (A : matrix) : matrix := (fun r : row => fmul c <$> r) <$> A.
Definition mat_div (A : matrix) (n : Z) : matrix :=
  (fun r : row => (fun x => fdiv x (of_int n)) <$> r) <$> A.

(** [np.sum] of a vector: the empty sum is 0, otherwise the entries are
    added to the first one from left to right.  (For rows of eight
    entries and more numpy adds in blocks; the value is the same whenever
    addition is associative.) *)
Definition np_sum (l : list F) : F :=
  match l with
  | [] => fzero
  | x :: rest => foldl fadd x rest
  end.

Definition dot (r s : row) : F := np_sum (zip_with fmul r s).

(** [np.sum(emb_user[users] * emb_movie[movies], axis=1)] *)
Definition predict (users movies : list Z) (emb_user emb_movie : matrix)
  : result (list F) :=
  pu ← take_rows emb_user users;
  pm ← take_rows emb_movie movies;
  Ok (zip_with dot pu pm).

(** *** Sparse matrix builder *)

(** scipy's constructor from coordinates: it rejects a negative dimension
    and an index outside the shape, and the conversion to the compressed
    format adds up the values that share a coordinate. *)
Definition coo_add (m : gmap (Z * Z) F) (t : Z * Z * F) : gmap (Z * Z) F :=
  let '(r, c, v) := t in
  <[(r, c) := match m !! (r, c) with
              | Some x => fadd x v
              | None => v
              end]> m.

Definition in_shape (nrows ncols : Z) (t : Z * Z * F) : Prop :=
  let '(r, c, _) := t in 0 <= r < nrows /\ 0 <= c < ncols.

#[global] Instance in_shape_dec nrows ncols t : Decision (in_shape nrows ncols t).
Proof. destruct t as [[r c] v]. simpl. apply _. Defined.

Definition sparse_csc_matrix (values : list F) (ind_row ind_col : list Z)
    (nrows ncols : Z) : result (csc_matrix F) :=
  let triples := zip (zip ind_row ind_col) values in
  if decide (0 <= nrows /\ 0 <= ncols) then
    if decide (Forall (in_shape nrows ncols) triples) then
      Ok (mkCsc (nrows, ncols) (foldl coo_add ∅ triples))
    else Raise ValueError
  else Raise ValueError.

(** [M[r, c]]: a coordinate that is not stored reads as zero. *)
Definition sp_get (M : csc_matrix F) (r c : Z) : F :=
  default fzero (entries M !! (r, c)).

(** [df2matrix(df, nrows, ncols)], with the default column ["rating"]. *)
Definition df2matrix (df : DataFrame Z F) (nrows ncols : Z)
  : result (csc_matrix F) :=
  let values := rating df in
  let ind_movie := movieId df in
  let ind_user := userId df in
  sparse_csc_matrix values ind_user ind_movie nrows ncols.

(** *** Cost *)

(** [np.mean] of a vector without missing values. *)
Definition np_mean (l : list F) : F :=
  fdiv (np_sum l) (of_int (Z.of_nat (length l))).

(** [cost(df, emb_user, emb_movie)]: the mean of the squared differences.
    (The column ["Prediction"] that the call stores in [df] is not part of
    the frames of this embedding.) *)
Definition cost (df : DataFrame Z F) (emb_user emb_movie : matrix) : result F :=
  prediction ← predict (userId df) (movieId df) emb_user emb_movie;
  let err := (fun d => fmul d d) <$> zip_with fsub (rating df) prediction in
  Ok (np_mean err).

(** *** Gradient *)

(** The body of the loop of [gradient], at position [idx].  [diff] is a
    Series that carries the row labels of the frame, and [diff[idx]]
    looks [idx] up among them, while [.values[idx]] is positional. *)
Definition gradient_body (df : DataFrame Z F) (diff : list F)
    (emb_user emb_movie : matrix) (g : matrix * matrix) (idx : nat)
  : result (matrix * matrix) :=
  let '(grad_user, grad_movie) := g in
  u ← from_option Ok (Raise IndexError) (userId df !! idx);
  m ← from_option Ok (Raise IndexError) (movieId df !! idx);
  gu ← getrow grad_user u;
  d ← series_getitem (df_index df) diff (Z.of_nat idx);
  em ← getrow emb_movie m;
  grad_user ← setrow grad_user u
                (row_add gu (row_scale (fmul (of_int (-2)) d) em));
  gm ← getrow grad_movie m;
  d ← series_getitem (df_index df) diff (Z.of_nat idx);
  eu ← getrow emb_user u;
  grad_movie ← setrow grad_movie m
                 (row_add gm (row_scale (fmul (of_int (-2)) d) eu));
  Ok (grad_user, grad_movie).

(** [gradient(df, Y, emb_user, emb_movie)]; [Y] is not read. *)
Definition gradient (df : DataFrame Z F) (Y : csc_matrix F)
    (emb_user emb_movie : matrix) : result (matrix * matrix) :=
  predictions ← predict (userId df) (movieId df) emb_user emb_movie;
  let diff := zip_with fsub (rating df) predictions in
  let grad_user := zeros_like emb_user in
  let grad_movie := zeros_like emb_movie in
  '(grad_user, grad_movie) ←
    foldR (gradient_body df diff emb_user emb_movie)
          (grad_user, grad_movie) (seq 0 (len df));
  Ok (mat_div grad_user (Z.of_nat (len df)),
      mat_div grad_movie (Z.of_nat (len df))).

End Numeric.

(** ** Optimiser ([gradient_descent]) *)

(** The arrays a caller can observe, by reference.  Every reference denotes
    an array; [emb_user -= ...] replaces the contents behind a reference. *)
Abbreviation store F := (nat -> list (list F)) (only parsing).

Section Optimiser.
Context {F : Type} `{Arith F}.

Definition momentum : F := of_lit (9 # 10).

(** [momentum * velocity + (1 - momentum) * grad] *)
Definition update_velocity (velocity grad : list (list F)) : list (list F) :=
  mat_add (mat_scale momentum velocity)
          (mat_scale (fsub (of_int 1) momentum) grad).

(** The loop of [gradient_descent]: [emb_user] and [emb_movie] are the
    references the caller passed, the velocities are local. *)
Fixpoint gd_loop (iterations : nat) (df : DataFrame Z F) (Y : csc_matrix F)
    (emb_user emb_movie : nat) (learning_rate : F)
    (velocity_user velocity_movie : list (list F)) (σ : store F)
  : result (store F) :=
  match iterations with
  | O => Ok σ
  | S k =>
      '(grad_user, grad_movie) ← gradient df Y (σ emb_user) (σ emb_movie);
      let velocity_user := update_velocity velocity_user grad_user in
      let velocity_movie := update_velocity velocity_movie grad_movie in
      let σ := <[emb_user :=
                   mat_sub (σ emb_user) (mat_scale learning_rate velocity_user)]> σ in
      let σ := <[emb_movie :=
                   mat_sub (σ emb_movie) (mat_scale learning_rate velocity_movie)]> σ in
      gd_loop k df Y emb_user emb_movie learning_rate
              velocity_user velocity_movie σ
  end.

(** [gradient_descent(df, emb_user, emb_movie, iterations, learning_rate)];
    the parameter [df_val] is not read.  The count of iterations is a
    natural number ([range] of a negative count is empty). *)
Definition gradient_descent (df : DataFrame Z F) (emb_user emb_movie : nat)
    (iterations : nat) (learning_rate : F) (σ : store F)
  : result ((nat * nat) * store F) :=
  Y ← df2matrix df (Z.of_nat (length (σ emb_user)))
                   (Z.of_nat (length (σ emb_movie)));
  let velocity_user := zeros_like (σ emb_user) in
  let velocity_movie := zeros_like (σ emb_movie) in
  σ' ← gd_loop iterations df Y emb_user emb_movie learning_rate
               velocity_user velocity_movie σ;
  Ok ((emb_user, emb_movie), σ').

End Optimiser.

(** ** The behaviour the specification describes *)

Section Described.
Context {F : Type} `{Arith F}.

(** The observations of a frame, one triple per row. *)
Definition observations (df : DataFrame Z F) : list (Z * Z * F) :=
  zip (zip (userId df) (movieId df)) (rating df).

(** Row [i] of a matrix, for [i] counted from the front. *)
Definition row_at (A : list (list F)) (i : Z) : list F :=
  default [] (A !! Z.to_nat i).

(** [diff_i = rating_i - dot(emb_user[user_i], emb_movie[item_i])] *)
Definition diff_of (emb_user emb_movie : list (list F)) (o : Z * Z * F) : F :=
  let '(u, m, r) := o in
  fsub r (dot (row_at emb_user u) (row_at emb_movie m)).

(** What observation [o] adds to the gradient row of its user, and of
    its item. *)
Definition user_term (emb_user emb_movie : list (list F)) (o : Z * Z * F)
  : list F :=
  row_scale (fmul (of_int (-2)) (diff_of emb_user emb_movie o))
            (row_at emb_movie o.1.2).

Definition movie_term (emb_user emb_movie : list (list F)) (o : Z * Z * F)
  : list F :=
  row_scale (fmul (of_int (-2)) (diff_of emb_user emb_movie o))
            (row_at emb_user o.1.1).

(** The terms of the observations of user [u] (of item [m]), in the
    order of the frame. *)
Definition user_terms (emb_user emb_movie : list (list F))
    (obs : list (Z * Z * F)) (u : Z) : list (list F) :=
  user_term emb_user emb_movie <$> filter (fun o => o.1.1 = u) obs.

Definition movie_terms (emb_user emb_movie : list (list F))
    (obs : list (Z * Z * F)) (m : Z) : list (list F) :=
  movie_term emb_user emb_movie <$> filter (fun o => o.1.2 = m) obs.

(** Every index of the frame is a row of its factor matrix, counted
    from the front. *)
Definition valid_indices (df : DataFrame Z F) (U V : list (list F)) : Prop :=
  Forall (fun i => 0 <= i < Z.of_nat (length U)) (userId df) /\
  Forall (fun i => 0 <= i < Z.of_nat (length V)) (movieId df).

(** The effect of one turn of the loop of [gradient] on the two
    accumulators, for an observation with valid indices. *)
Definition accumulate (emb_user emb_movie : list (list F))
    (g : list (list F) * list (list F)) (o : Z * Z * F)
  : list (list F) * list (list F) :=
  (<[Z.to_nat o.1.1 :=
       row_add (row_at g.1 o.1.1) (user_term emb_user emb_movie o)]> g.1,
   <[Z.to_nat o.1.2 :=
       row_add (row_at g.2 o.1.2) (movie_term emb_user emb_movie o)]> g.2).

Definition zero_row (K : nat) : list F := replicate K fzero.

(** Rows added one after the other to a zero row, then divided by [n]. *)
Definition mean_of_terms (K : nat) (n : Z) (terms : list (list F)) : list F :=
  (fun x => fdiv x (of_int n)) <$> foldl row_add (zero_row K) terms.

(** The values given at coordinate [(r, c)], in the order of the input. *)
Definition values_at (triples : list (Z * Z * F)) (r c : Z) : list F :=
  snd <$> filter (fun t => t.1 = (r, c)) triples.

(** Values added one after the other to what a coordinate holds. *)
Definition sum_into (held : option F) (vs : list F) : option F :=
  foldl (fun acc v => Some (match acc with
                            | Some x => fadd x v
                            | None => v
                            end)) held vs.

(** The state of the optimiser and its transition. *)
Record opt_state : Type := mkState {
  st_user : list (list F);
  st_movie : list (list F);
  st_vel_user : list (list F);
  st_vel_movie : list (list F)
}.

Definition initial_state (emb_user emb_movie : list (list F)) : opt_state :=
  mkState emb_user emb_movie (zeros_like emb_user) (zeros_like emb_movie).

Definition transition (df : DataFrame Z F) (Y : csc_matrix F)
    (learning_rate : F) (s : opt_state) : result opt_state :=
  '(grad_user, grad_movie) ← gradient df Y (st_user s) (st_movie s);
  let vel_user :=
    mat_add (mat_scale (of_lit (9 # 10)) (st_vel_user s))
            (mat_scale (fsub (of_int 1) (of_lit (9 # 10))) grad_user) in
  let vel_movie :=
    mat_add (mat_scale (of_lit (9 # 10)) (st_vel_movie s))
            (mat_scale (fsub (of_int 1) (of_lit (9 # 10))) grad_movie) in
  Ok (mkState (mat_sub (st_user s) (mat_scale learning_rate vel_user))
              (mat_sub (st_movie s) (mat_scale learning_rate vel_movie))
              vel_user vel_movie).

Fixpoint iterate (n : nat) (f : opt_state -> result opt_state) (s : opt_state)
  : result opt_state :=
  match n with
  | O => Ok s
  | S k => s' ← f s; iterate k f s'
  end.

End Described.

(** ** Further functions of the source
       ([sparse_multiply], [finite_difference]) *)

Section Further.
Context {F : Type} `{Arith F}.

(** [df2matrix(df, nrows, ncols, column_name=...)] for a column of values
    other than ["rating"]. *)
Definition df2matrix_column (values : list F) (df : DataFrame Z F)
    (nrows ncols : Z) : result (csc_matrix F) :=
  let ind_movie := movieId df in
  let ind_user := userId df in
  sparse_csc_matrix values ind_user ind_movie nrows ncols.

(** [sparse_multiply(df, emb_user, emb_movie)]: the predictions of the
    observed pairs, stored in the column ["Prediction"] and handed to
    [df2matrix] with the shape (users, items). *)
Definition sparse_multiply (df : DataFrame Z F) (emb_user emb_movie : list (list F))
  : result (csc_matrix F) :=
  prediction ← predict (userId df) (movieId df) emb_user emb_movie;
  df2matrix_column prediction df (Z.of_nat (length emb_user))
                   (Z.of_nat (length emb_movie)).

(** [x[ind][k] = e] on a matrix.  [x[ind]] is a view of row [ind], and of
    the whole matrix under a leading axis of length 1 when [ind] is [None];
    [view[k] = e] writes one entry of the view, and all of it when [k] is
    [None]. *)
Definition assign_entry (x : list (list F)) (ind k : option Z) (e : F)
  : result (list (list F)) :=
  match ind with
  | Some i =>
      r ← getrow x i;
      r' ← match k with
           | Some j => j' ← np_index (length r) j; Ok (<[j' := e]> r)
           | None => Ok ((fun _ => e) <$> r)
           end;
      setrow x i r'
  | None =>
      _ ← match k with
          | Some j => np_index 1 j
          | None => Ok O
          end;
      Ok ((fun r : list F => (fun _ => e) <$> r) <$> x)
  end.

(** The step [e = 0.000000001] of [finite_difference]. *)
Definition fd_step : F := of_lit (1 # 1000000000).

(** [finite_difference(df, emb_user, emb_movie, ind_u, ind_m, k)]. *)
Definition finite_difference (df : DataFrame Z F) (emb_user emb_movie : list (list F))
    (ind_u ind_m k : option Z) : result F :=
  let e := fd_step in
  c1 ← cost df emb_user emb_movie;
  let x := zeros_like emb_user in
  let y := zeros_like emb_movie in
  '(x, y) ← match ind_u with
            | Some _ => x' ← assign_entry x ind_u k e; Ok (x', y)
            | None => y' ← assign_entry y ind_m k e; Ok (x, y')
            end;
  c2 ← cost df (mat_add emb_user x) (mat_add emb_movie y);
  Ok (fdiv (fsub c2 c1) e).

(** An index in [-n, 0) and the row it denotes. *)
Definition norm_index (n : nat) (i : Z) : Z :=
  if decide (i < 0) then Z.of_nat n + i else i.

(** The frame in which every index is counted from the front. *)
Definition normalise (df : DataFrame Z F) (U V : list (list F)) : DataFrame Z F :=
  mkFrame (df_index df)
          (norm_index (length U) <$> userId df)
          (norm_index (length V) <$> movieId df)
          (rating df).

(** Every index of the frame is accepted by numpy. *)
Definition wrap_indices (df : DataFrame Z F) (U V : list (list F)) : Prop :=
  Forall (fun i => - Z.of_nat (length U) <= i < Z.of_nat (length U)) (userId df) /\
  Forall (fun i => - Z.of_nat (length V) <= i < Z.of_nat (length V)) (movieId df).

(** A sum, added from the right, and the entry [(i, k)] of a matrix. *)
Definition total (l : list F) : F := foldr fadd fzero l.

Definition entry (A : list (list F)) (i k : Z) : F :=
  default fzero (row_at A i !! Z.to_nat k).

(** The squared differences of the observations. *)
Definition squared_errors (df : DataFrame Z F) (U V : list (list F)) : list F :=
  (fun o => fmul (diff_of U V o) (diff_of U V o)) <$> observations df.

(** The matrices and velocities of a state have the shapes of the factor
    matrices. *)
Definition rect_state (nu nv K : nat) (s : @opt_state F) : Prop :=
  rect nu K (st_user s) /\ rect nv K (st_movie s) /\
  rect nu K (st_vel_user s) /\ rect nv K (st_vel_movie s).

End Further.

(** ** Concrete data *)

(** Small inputs in binary64 arithmetic, on which the definitions are
    evaluated. *)
Module Data.

Definition emb2 : list (list float) :=
  [[1%float; 2%float]; [3%float; 4%float]].

(** Two arrays behind the references 0 and 1. *)
Definition store2 : nat -> list (list float) :=
  fun l => match l with
           | O => emb2
           | _ => [[1%float; 1%float]; [2%float; 0%float]]
           end.

Definition Y0 : csc_matrix float := mkCsc (2, 2) ∅.

(** User 0 rated items 0 and 1; user 1 rated nothing. *)
Definition frame2 : DataFrame Z float :=
  mkFrame [0; 1] [0; 0] [0; 1] [5%float; 1%float].

(** The same observations, with the two row labels exchanged. *)
Definition relabelled_frame : DataFrame Z float :=
  mkFrame [1; 0] [0; 0] [0; 1] [5%float; 1%float].

(** One observation whose user index is the integer -1. *)
Definition sentinel_frame : DataFrame Z float :=
  mkFrame [0] [-1] [0] [5%float].

(** One observation whose user index is past the last row. *)
Definition overflow_frame : DataFrame Z float :=
  mkFrame [0] [2] [0] [5%float].

(** Two observations of the same user and item. *)
Definition repeated_frame : DataFrame Z float :=
  mkFrame [0; 1] [0; 0] [0; 0] [1%float; 2%float].

Definition empty_frame : DataFrame Z float := mkFrame [] [] [] [].

Definition rate : float := of_lit (1 # 100).

End Data.

(** Further inputs: a frame that kept the label 1 after its row 0 was
    filtered out, raw identifiers, and inputs in exact arithmetic. *)
Module MoreData.

Definition filtered_frame : DataFrame Z float :=
  mkFrame [1] [0] [0] [5%float].

(** Raw identifiers 7, 3, 7 of users and 40, 40, 50 of items. *)
Definition raw_frame : DataFrame Z float :=
  mkFrame [0; 1; 2] [7; 3; 7] [40; 40; 50] [5%float; 1%float; 2%float].

Definition q (z : Z) : Qc := of_int z.

Definition qemb : list (list Qc) := [[q 1; q 2]; [q 3; q 4]].

Definition qframe : DataFrame Z Qc :=
  mkFrame [0; 1] [0; 0] [0; 1] [q 5; q 1].

(** The observations of [qframe] in the other order. *)
Definition qframe_swapped : DataFrame Z Qc :=
  mkFrame [0; 1] [0; 0] [1; 0] [q 1; q 5].

(** One user [(1, 0)], one item [(2, 5)] and the rating 2 they predict. *)
Definition fit_store : nat -> list (list Qc) :=
  fun l => match l with
           | O => [[q 1; q 0]]
           | _ => [[q 2; q 5]]
           end.

Definition fit_frame : DataFrame Z Qc := mkFrame [0] [0] [0] [q 2].

End MoreData.

(** * Properties *)

(** ** The encoder *)

Section EncoderFacts.
Context {Id : Type} `{Countable Id}.

Lemma unique_aux_elem (seen : gset Id) (col : list Id) (x : Id) :
  x ∈ unique_aux seen col <-> x ∈ col /\ x ∉ seen.
Proof.
  revert seen. induction col as [|y col IH]; intros seen; simpl.
  - set_solver.
  - case_decide as Hy.
    + rewrite IH. set_solver.
    + rewrite elem_of_cons, IH. set_unfold.
      destruct (decide (x = y)); naive_solver.
Qed.

Lemma unique_aux_NoDup (seen : gset Id) (col : list Id) :
  NoDup (unique_aux seen col).
Proof.
  revert seen. induction col as [|y col IH]; intros seen; simpl.
  - constructor.
  - case_decide; [apply IH|].
    constructor; [|apply IH].
    rewrite unique_aux_elem. set_solver.
Qed.

Lemma unique_aux_app (seen : gset Id) (pre post : list Id) :
  unique_aux seen (pre ++ post) =
  unique_aux seen pre ++ unique_aux (list_to_set pre ∪ seen) post.
Proof.
  revert seen. induction pre as [|y pre IH]; intros seen; simpl.
  - by rewrite (left_id_L ∅ (∪)).
  - case_decide as Hy.
    + rewrite IH. f_equal.
      assert (list_to_set pre ∪ seen = {[y]} ∪ list_to_set pre ∪ seen) as <-
        by set_solver.
      done.
    + simpl. rewrite IH. do 2 f_equal.
      assert (list_to_set pre ∪ ({[y]} ∪ seen) = {[y]} ∪ list_to_set pre ∪ seen)
        as <- by set_solver.
      done.
Qed.

Lemma unique_elem (col : list Id) (x : Id) : x ∈ unique col <-> x ∈ col.
Proof. unfold unique. rewrite unique_aux_elem. set_solver. Qed.

Lemma unique_NoDup (col : list Id) : NoDup (unique col).
Proof. apply unique_aux_NoDup. Qed.

Lemma unique_length (col : list Id) :
  length (unique col) = size (list_to_set col : gset Id).
Proof.
  rewrite <- (size_list_to_set (C := gset Id) (unique col)) by apply unique_NoDup.
  f_equal. apply set_eq. intros x.
  rewrite !elem_of_list_to_set. apply unique_elem.
Qed.

(** The first occurrence of [x] is numbered by the count of distinct
    identifiers before it. *)
Lemma unique_first_occurrence (pre post : list Id) (x : Id) :
  x ∉ pre ->
  unique (pre ++ x :: post) !! size (list_to_set pre : gset Id) = Some x.
Proof.
  intros Hx. unfold unique. rewrite unique_aux_app.
  rewrite <- unique_length. fold (unique pre).
  rewrite lookup_app_r by lia. rewrite Nat.sub_diag. simpl.
  case_decide as Hin; [set_solver|done].
Qed.

Lemma dict_comp_notin (l : list Id) (k : nat) (m0 : gmap Id Z) (x : Id) :
  x ∉ l -> dict_comp m0 (enumerate_from k l) !! x = m0 !! x.
Proof.
  revert k m0. induction l as [|y l IH]; intros k m0 Hx; [done|].
  apply not_elem_of_cons in Hx as [Hxy Hx]. unfold dict_comp in *. simpl.
  rewrite IH by done. by rewrite lookup_insert_ne.
Qed.

Lemma dict_comp_lookup (l : list Id) (k : nat) (m0 : gmap Id Z) (j : nat) (x : Id) :
  NoDup l -> l !! j = Some x ->
  dict_comp m0 (enumerate_from k l) !! x = Some (Z.of_nat (k + j)).
Proof.
  revert k m0 j. induction l as [|y l IH]; intros k m0 j Hnd Hj; [done|].
  apply NoDup_cons in Hnd as [Hy Hnd].
  destruct j as [|j]; simpl in Hj.
  - injection Hj as ->. change (enumerate_from k (x :: l)) with
      ((k, x) :: enumerate_from (S k) l).
    unfold dict_comp. simpl. fold (dict_comp (<[x:=Z.of_nat k]> m0) (enumerate_from (S k) l)).
    rewrite dict_comp_notin by done.
    rewrite lookup_insert_eq. do 2 f_equal. lia.
  - unfold dict_comp. simpl.
    fold (dict_comp (<[y:=Z.of_nat k]> m0) (enumerate_from (S k) l)).
    rewrite (IH (S k) _ j) by done. do 2 f_equal. lia.
Qed.

(** The dict built by [proc_col] is the numbering of [unique col]. *)
Lemma name2idx_lookup (col : list Id) (x : Id) (i : Z) :
  dict_comp ∅ (enumerate (unique col)) !! x = Some i <->
  exists j : nat, unique col !! j = Some x /\ i = Z.of_nat j.
Proof.
  split.
  - intros Hm. destruct (decide (x ∈ unique col)) as [Hin|Hout].
    + apply list_elem_of_lookup in Hin as [j Hj]. exists j. split; [done|].
      unfold enumerate in Hm.
      rewrite (dict_comp_lookup _ 0 ∅ j x (unique_NoDup col) Hj) in Hm.
      injection Hm as <-. done.
    + unfold enumerate in Hm. rewrite dict_comp_notin in Hm by done.
      by rewrite lookup_empty in Hm.
  - intros (j & Hj & ->). unfold enumerate.
    by rewrite (dict_comp_lookup _ 0 ∅ j x (unique_NoDup col) Hj).
Qed.

Lemma mapM_getitem (m : gmap Id Z) (col : list Id) :
  (forall x, x ∈ col -> is_Some (m !! x)) ->
  mapM (dict_getitem m) col = Ok (apply_encoding m col).
Proof.
  induction col as [|y col IH]; intros Hall; [done|].
  destruct (Hall y) as [i Hi]; [set_solver|].
  assert (dict_getitem m y = Ok i) as Hget
    by (unfold dict_getitem; by rewrite Hi).
  cbn [mapM]. rewrite Hget, IH by set_solver.
  unfold apply_encoding, fillna, series_map. simpl. by rewrite Hi.
Qed.

Lemma proc_col_eq (col : list Id) :
  proc_col col =
  Ok (dict_comp ∅ (enumerate (unique col)),
      apply_encoding (dict_comp ∅ (enumerate (unique col))) col,
      Z.of_nat (size (list_to_set col : gset Id))).
Proof.
  unfold proc_col. rewrite mapM_getitem.
  - simpl. by rewrite unique_length.
  - intros x Hx. apply unique_elem, list_elem_of_lookup in Hx as [j Hj].
    exists (Z.of_nat j). apply name2idx_lookup. eauto.
Qed.

Lemma apply_encoding_lookup (m : gmap Id Z) (col : list Id) (i : nat) :
  apply_encoding m col !! i = (fun x => default (-1) (m !! x)) <$> col !! i.
Proof.
  unfold apply_encoding, fillna, series_map.
  rewrite !list_lookup_fmap. by destruct (col !! i).
Qed.

End EncoderFacts.

Section EncoderClaims.
Context {Id : Type} `{Countable Id}.

(** C6.  [proc_col] always returns.  Its count is the number of distinct
    identifiers of the column; the map gives an index to the identifiers
    of the column and to no other, each index lies in [0, n), and an
    identifier is numbered by the count of distinct identifiers that
    come before its first occurrence (order of first appearance); the
    encoded column holds at position [i] the index of the [i]-th
    identifier; every index in [0, n) belongs to exactly one identifier.
    The result is a function of the column. *)
Theorem proc_col_dense_first_appearance (col : list Id) :
  let n := Z.of_nat (size (list_to_set col : gset Id)) in
  exists (name2idx : gmap Id Z) (enc : list Z),
    proc_col col = Ok (name2idx, enc, n) /\
    (forall x, is_Some (name2idx !! x) <-> x ∈ col) /\
    (forall x i, name2idx !! x = Some i -> 0 <= i < n) /\
    (forall pre x post, col = pre ++ x :: post -> x ∉ pre ->
       name2idx !! x = Some (Z.of_nat (size (list_to_set pre : gset Id)))) /\
    Forall2 (fun x i => name2idx !! x = Some i) col enc /\
    (forall i, 0 <= i < n ->
       exists x, name2idx !! x = Some i /\
                 forall y, name2idx !! y = Some i -> y = x).
Proof.
  intros n. eexists _, _. split; [apply proc_col_eq|].
  set (m := dict_comp ∅ (enumerate (unique col))).
  assert (Hdom : forall x, is_Some (m !! x) <-> x ∈ col).
  { intros x. rewrite <- unique_elem. split.
    - intros [i Hi]. apply name2idx_lookup in Hi as (j & Hj & _).
      apply list_elem_of_lookup. eauto.
    - intros [j Hj]%list_elem_of_lookup. exists (Z.of_nat j).
      apply name2idx_lookup. eauto. }
  repeat split.
  - apply Hdom.
  - apply Hdom.
  - apply name2idx_lookup in H0 as (j & Hj & ->). lia.
  - apply name2idx_lookup in H0 as (j & Hj & ->).
    apply lookup_lt_Some in Hj. rewrite unique_length in Hj.
    subst n. lia.
  - intros pre x post -> Hx. apply name2idx_lookup.
    eexists. split; [|reflexivity]. by apply unique_first_occurrence.
  - apply Forall2_same_length_lookup. split.
    + unfold apply_encoding, fillna, series_map. by rewrite !length_fmap.
    + intros i x j Hx Hj. rewrite apply_encoding_lookup, Hx in Hj.
      simpl in Hj. injection Hj as <-.
      destruct (Hdom x) as [_ [k Hk]]; [by eapply list_elem_of_lookup_2|].
      fold m. by rewrite Hk.
  - intros i [Hi0 Hin].
    assert (Hlt : (Z.to_nat i < length (unique col))%nat)
      by (rewrite unique_length; subst n; lia).
    apply lookup_lt_is_Some_2 in Hlt as [x Hx].
    exists x. split.
    + apply name2idx_lookup. exists (Z.to_nat i). split; [done|lia].
    + intros y Hy. apply name2idx_lookup in Hy as (j & Hj & ->).
      rewrite Nat2Z.id in Hx. congruence.
Qed.

(** C5.  Applying a map to a column keeps the length; position [i] holds
    the index of the [i]-th identifier when the map has it and -1
    otherwise; replacing the identifier at one position, by an unseen one
    or any other, leaves the codes at the other positions as they were;
    and [encode_new_data] returns for every pair of frames (the map is a
    value that the call only reads). *)
Theorem apply_encoding_sentinel (m : gmap Id Z) (col : list Id) :
  length (apply_encoding m col) = length col /\
  (forall i x, col !! i = Some x ->
     apply_encoding m col !! i =
     Some (match m !! x with Some j => j | None => -1 end)) /\
  (forall i j y, i <> j ->
     apply_encoding m (<[j := y]> col) !! i = apply_encoding m col !! i) /\
  (forall F (df_val df_train : DataFrame Id F),
     exists user2idx eu nu movie2idx em nm,
       proc_col (userId df_train) = Ok (user2idx, eu, nu) /\
       proc_col (movieId df_train) = Ok (movie2idx, em, nm) /\
       encode_new_data df_val df_train =
       Ok (mkFrame (df_index df_val)
             (apply_encoding user2idx (userId df_val))
             (apply_encoding movie2idx (movieId df_val))
             (rating df_val))).
Proof.
  repeat split.
  - unfold apply_encoding, fillna, series_map. by rewrite !length_fmap.
  - intros i x Hx. rewrite apply_encoding_lookup, Hx. simpl.
    by destruct (m !! x).
  - intros i j y Hij. rewrite !apply_encoding_lookup.
    by rewrite list_lookup_insert_ne.
  - intros F df_val df_train. eexists _, _, _, _, _, _.
    split; [apply proc_col_eq|]. split; [apply proc_col_eq|].
    unfold encode_new_data. by rewrite !proc_col_eq.
Qed.

(** C7.  For every frame the counts returned by [proc_col] are the
    numbers of distinct identifiers of the two columns, and encoding the
    frame with itself as the reference gives back the two encoded columns
    of the build step (the frame of [encode_data]), in which -1 does not
    occur. *)
Theorem encoding_round_trip {F} (df : DataFrame Id F) :
  exists user2idx eu movie2idx em,
    proc_col (userId df) =
      Ok (user2idx, eu, Z.of_nat (size (list_to_set (userId df) : gset Id))) /\
    proc_col (movieId df) =
      Ok (movie2idx, em, Z.of_nat (size (list_to_set (movieId df) : gset Id))) /\
    apply_encoding user2idx (userId df) = eu /\
    apply_encoding movie2idx (movieId df) = em /\
    encode_new_data df df = Ok (mkFrame (df_index df) eu em (rating df)) /\
    encode_data df =
      Ok (mkFrame (df_index df) eu em (rating df),
          Z.of_nat (size (list_to_set (userId df) : gset Id)),
          Z.of_nat (size (list_to_set (movieId df) : gset Id))) /\
    ((-1) ∉ eu) /\ ((-1) ∉ em).
Proof.
  assert (Hneg : forall col : list Id,
    (-1) ∉ apply_encoding (dict_comp ∅ (enumerate (unique col))) col).
  { intros col [i Hi]%list_elem_of_lookup.
    rewrite apply_encoding_lookup in Hi.
    destruct (col !! i) as [x|] eqn:Hx; [|done]. simpl in Hi.
    assert (x ∈ unique col) as [j Hj]%list_elem_of_lookup
      by (apply unique_elem; by eapply list_elem_of_lookup_2).
    assert (dict_comp ∅ (enumerate (unique col)) !! x = Some (Z.of_nat j)) as Hm
      by (apply name2idx_lookup; eauto).
    rewrite Hm in Hi. simpl in Hi. injection Hi as Hi. lia. }
  eexists _, _, _, _.
  split; [apply proc_col_eq|]. split; [apply proc_col_eq|].
  repeat split; [| |apply Hneg|apply Hneg].
  - unfold encode_new_data. by rewrite !proc_col_eq.
  - unfold encode_data. by rewrite !proc_col_eq.
Qed.

End EncoderClaims.

(** ** Indexing *)

Section IndexFacts.
Context {F : Type} `{Arith F}.

Lemma np_index_nonneg (n : nat) (i : Z) :
  0 <= i < Z.of_nat n -> np_index n i = Ok (Z.to_nat i).
Proof. intros Hi. unfold np_index. by rewrite decide_True. Qed.

Lemma np_index_wraps (n : nat) (i : Z) :
  - Z.of_nat n <= i < 0 -> np_index n i = Ok (Z.to_nat (Z.of_nat n + i)).
Proof.
  intros Hi. unfold np_index.
  rewrite decide_False by lia. by rewrite decide_True.
Qed.

Lemma np_index_outside (n : nat) (i : Z) :
  ~ (- Z.of_nat n <= i < Z.of_nat n) -> np_index n i = Raise IndexError.
Proof.
  intros Hi. unfold np_index.
  rewrite decide_False by lia. by rewrite decide_False by lia.
Qed.

Lemma getrow_nonneg (A : list (list F)) (i : Z) :
  0 <= i < Z.of_nat (length A) -> getrow A i = Ok (row_at A i).
Proof.
  intros Hi. unfold getrow, row_at. rewrite np_index_nonneg by done. simpl.
  destruct (lookup_lt_is_Some_2 A (Z.to_nat i)) as [r Hr]; [lia|].
  by rewrite Hr.
Qed.

Lemma getrow_wraps (A : list (list F)) (i : Z) :
  - Z.of_nat (length A) <= i < 0 ->
  getrow A i = Ok (row_at A (Z.of_nat (length A) + i)).
Proof.
  intros Hi. unfold getrow, row_at. rewrite np_index_wraps by done. simpl.
  destruct (lookup_lt_is_Some_2 A (Z.to_nat (Z.of_nat (length A) + i)))
    as [r Hr]; [lia|].
  by rewrite Hr.
Qed.

Lemma getrow_outside (A : list (list F)) (i : Z) :
  ~ (- Z.of_nat (length A) <= i < Z.of_nat (length A)) ->
  getrow A i = Raise IndexError.
Proof. intros Hi. unfold getrow. by rewrite np_index_outside. Qed.

(** Indexing raises nothing but [IndexError]. *)
Lemma getrow_cases (A : list (list F)) (i : Z) :
  getrow A i = Raise IndexError \/ exists r, getrow A i = Ok r.
Proof.
  destruct (decide (0 <= i < Z.of_nat (length A))).
  { right. eexists. by apply getrow_nonneg. }
  destruct (decide (- Z.of_nat (length A) <= i < 0)).
  { right. eexists. by apply getrow_wraps. }
  left. apply getrow_outside. lia.
Qed.

Lemma take_rows_cases (A : list (list F)) (idx : list Z) :
  take_rows A idx = Raise IndexError \/ exists rs, take_rows A idx = Ok rs.
Proof.
  unfold take_rows. induction idx as [|i idx IH]; [right; by eexists|].
  cbn [mapM]. destruct (getrow_cases A i) as [->|[r ->]]; [by left|].
  destruct IH as [->|[rs ->]]; [by left|right; by eexists].
Qed.

Lemma take_rows_outside (A : list (list F)) (idx : list Z) :
  Exists (fun i => ~ (- Z.of_nat (length A) <= i < Z.of_nat (length A))) idx ->
  take_rows A idx = Raise IndexError.
Proof.
  unfold take_rows. induction 1 as [i idx Hi|i idx Hex IH]; cbn [mapM].
  - by rewrite getrow_outside.
  - destruct (getrow_cases A i) as [->|[r ->]]; [done|]. by rewrite IH.
Qed.

Lemma take_rows_nonneg (A : list (list F)) (idx : list Z) :
  Forall (fun i => 0 <= i < Z.of_nat (length A)) idx ->
  take_rows A idx = Ok (row_at A <$> idx).
Proof.
  unfold take_rows. induction 1 as [|i idx Hi Hall IH]; [done|].
  cbn [mapM]. by rewrite getrow_nonneg, IH.
Qed.

Lemma predict_outside (users movies : list Z) (emb_user emb_movie : list (list F)) :
  Exists (fun i => ~ (- Z.of_nat (length emb_user) <= i
                      < Z.of_nat (length emb_user))) users \/
  Exists (fun i => ~ (- Z.of_nat (length emb_movie) <= i
                      < Z.of_nat (length emb_movie))) movies ->
  predict users movies emb_user emb_movie = Raise IndexError.
Proof.
  unfold predict. intros [Hu|Hm].
  - by rewrite (take_rows_outside emb_user users Hu).
  - destruct (take_rows_cases emb_user users) as [->|[rs ->]]; [done|].
    simpl. by rewrite (take_rows_outside emb_movie movies Hm).
Qed.

Lemma predict_nonneg (users movies : list Z) (emb_user emb_movie : list (list F)) :
  Forall (fun i => 0 <= i < Z.of_nat (length emb_user)) users ->
  Forall (fun i => 0 <= i < Z.of_nat (length emb_movie)) movies ->
  predict users movies emb_user emb_movie =
  Ok (zip_with dot (row_at emb_user <$> users) (row_at emb_movie <$> movies)).
Proof.
  intros Hu Hm. unfold predict.
  by rewrite (take_rows_nonneg emb_user users Hu),
             (take_rows_nonneg emb_movie movies Hm).
Qed.

End IndexFacts.

(** ** The gradient *)

Lemma foldR_app {A B} (f : B -> A -> result B) (b : B) (l1 l2 : list A) :
  foldR f b (l1 ++ l2) = foldR f b l1 ≫= fun b' => foldR f b' l2.
Proof.
  revert b. induction l1 as [|x l1 IH]; intros b; [done|].
  simpl. destruct (f b x) as [b'|e]; [apply IH|done].
Qed.

Lemma series_getitem_default {A} (n : nat) (values : list A) (i : nat) (v : A) :
  (i < n)%nat -> values !! i = Some v ->
  series_getitem (seqZ 0 (Z.of_nat n)) values (Z.of_nat i) = Ok v.
Proof.
  intros Hi Hv. unfold series_getitem.
  assert (list_find (fun l => l = Z.of_nat i) (seqZ 0 (Z.of_nat n))
          = Some (i, Z.of_nat i)) as ->.
  { apply list_find_Some. split; [|split; [done|]].
    - by rewrite lookup_seqZ_lt by lia.
    - intros j y Hj Hlt. apply lookup_seqZ in Hj as [-> _]. lia. }
  by rewrite Hv.
Qed.

Section GradientFacts.
Context {F : Type} `{Arith F}.

Implicit Types (U V : list (list F)) (df : DataFrame Z F).

Lemma observations_lookup df (k : nat) (u m : Z) (r : F) :
  observations df !! k = Some (u, m, r) <->
  userId df !! k = Some u /\ movieId df !! k = Some m /\ rating df !! k = Some r.
Proof.
  unfold observations. rewrite !lookup_zip_Some. naive_solver.
Qed.

Lemma observations_length df :
  wf_frame df -> length (observations df) = len df.
Proof.
  intros (Hu & Hm & Hr & _). unfold observations.
  rewrite !length_zip_with. lia.
Qed.

Lemma diff_lookup df U V (k : nat) (o : Z * Z * F) :
  observations df !! k = Some o ->
  zip_with fsub (rating df)
    (zip_with dot (row_at U <$> userId df) (row_at V <$> movieId df)) !! k
  = Some (diff_of U V o).
Proof.
  destruct o as [[u m] r]. intros (Hu & Hm & Hr)%observations_lookup.
  rewrite !lookup_zip_with, !list_lookup_fmap, Hu, Hm, Hr. done.
Qed.

Lemma accumulate_length U V g (obs : list (Z * Z * F)) :
  length (foldl (accumulate U V) g obs).1 = length g.1 /\
  length (foldl (accumulate U V) g obs).2 = length g.2.
Proof.
  revert g. induction obs as [|o obs IH]; intros g; [done|].
  simpl. destruct (IH (accumulate U V g o)) as [-> ->].
  unfold accumulate. simpl. by rewrite !length_insert.
Qed.

(** One turn of the loop, on a frame with the default row labels. *)
Lemma gradient_body_step df U V g (k : nat) (o : Z * Z * F) :
  default_index df -> (k < len df)%nat ->
  observations df !! k = Some o ->
  0 <= o.1.1 < Z.of_nat (length U) -> 0 <= o.1.2 < Z.of_nat (length V) ->
  length g.1 = length U -> length g.2 = length V ->
  gradient_body df
    (zip_with fsub (rating df)
       (zip_with dot (row_at U <$> userId df) (row_at V <$> movieId df)))
    U V g k
  = Ok (accumulate U V g o).
Proof.
  intros Hidx Hk Ho Hu Hm Hg1 Hg2.
  pose proof (diff_lookup df U V k o Ho) as Hd.
  destruct o as [[u m] r]. destruct g as [gu gm]. simpl in *.
  apply observations_lookup in Ho as (Hku & Hkm & Hkr).
  unfold gradient_body. rewrite Hku, Hkm. simpl.
  rewrite Hidx, (series_getitem_default _ _ _ _ Hk Hd).
  rewrite (getrow_nonneg gu u) by lia.
  rewrite (getrow_nonneg gm m) by lia.
  rewrite (getrow_nonneg U u), (getrow_nonneg V m) by lia.
  simpl. unfold setrow.
  rewrite np_index_nonneg by lia. simpl.
  rewrite np_index_nonneg by lia. simpl.
  reflexivity.
Qed.

Lemma gradient_loop df U V g (k : nat) :
  wf_frame df -> default_index df -> valid_indices df U V ->
  length g.1 = length U -> length g.2 = length V ->
  (k <= len df)%nat ->
  foldR (gradient_body df
           (zip_with fsub (rating df)
              (zip_with dot (row_at U <$> userId df) (row_at V <$> movieId df)))
           U V) g (seq 0 k)
  = Ok (foldl (accumulate U V) g (take k (observations df))).
Proof.
  intros Hwf Hidx [Hvu Hvm] Hg1 Hg2. induction k as [|k IH]; intros Hk.
  - by rewrite take_0.
  - rewrite seq_S, foldR_app, IH by lia. simpl.
    destruct (lookup_lt_is_Some_2 (observations df) k) as [o Ho];
      [rewrite observations_length by done; lia|].
    rewrite (take_S_r _ _ _ Ho), foldl_app. simpl.
    destruct (accumulate_length U V g (take k (observations df))) as [Hl1 Hl2].
    destruct o as [[u m] r].
    pose proof Ho as (Hu & Hm & _)%observations_lookup.
    rewrite Forall_lookup in Hvu. rewrite Forall_lookup in Hvm.
    pose proof (Hvu _ _ Hu). pose proof (Hvm _ _ Hm).
    rewrite (gradient_body_step df U V _ k (u, m, r));
      [done|done|lia|done|done|done|by rewrite Hl1|by rewrite Hl2].
Qed.

Lemma zeros_like_length U : length (zeros_like U) = length U.
Proof. unfold zeros_like. by rewrite length_fmap. Qed.

Lemma mat_div_length U (n : Z) : length (mat_div U n) = length U.
Proof. unfold mat_div. by rewrite length_fmap. Qed.

(** On valid frames [gradient] returns the accumulators of the loop,
    divided by the number of observations. *)
Lemma gradient_eq df Y U V :
  wf_frame df -> default_index df -> valid_indices df U V ->
  gradient df Y U V =
  Ok (mat_div (foldl (accumulate U V) (zeros_like U, zeros_like V)
                 (observations df)).1 (Z.of_nat (len df)),
      mat_div (foldl (accumulate U V) (zeros_like U, zeros_like V)
                 (observations df)).2 (Z.of_nat (len df))).
Proof.
  intros Hwf Hidx Hv. unfold gradient.
  destruct Hv as [Hvu Hvm].
  rewrite (predict_nonneg _ _ _ _ Hvu Hvm). simpl.
  rewrite (gradient_loop df U V (zeros_like U, zeros_like V) (len df));
    try done; try apply zeros_like_length.
  rewrite <- (observations_length df Hwf), firstn_all. simpl.
  by destruct (foldl _ _ _).
Qed.

End GradientFacts.

Lemma filter_none {A} (P : A -> Prop) `{forall x, Decision (P x)} (l : list A) :
  Forall (fun x => ~ P x) l -> filter P l = [].
Proof.
  induction 1 as [|x l Hx Hl IH]; [done|].
  by rewrite filter_cons_False.
Qed.

Section AccumulationFacts.
Context {F : Type} `{Arith F}.

Implicit Types (U V : list (list F)) (df : DataFrame Z F).

Lemma row_at_insert_eq (G : list (list F)) (u : Z) (r : list F) :
  0 <= u < Z.of_nat (length G) -> row_at (<[Z.to_nat u := r]> G) u = r.
Proof.
  intros Hu. unfold row_at. by rewrite list_lookup_insert_eq by lia.
Qed.

Lemma row_at_insert_ne (G : list (list F)) (u v : Z) (r : list F) :
  0 <= u -> 0 <= v -> u <> v -> row_at (<[Z.to_nat v := r]> G) u = row_at G u.
Proof.
  intros Hu Hv Huv. unfold row_at. by rewrite list_lookup_insert_ne by lia.
Qed.

(** Row [u] of the user accumulator after the loop: the terms of the
    observations of [u] added, in order, to what the row held. *)
Lemma accumulate_user_row U V (obs : list (Z * Z * F)) g (u : Z) :
  Forall (fun o => 0 <= o.1.1) obs ->
  0 <= u < Z.of_nat (length g.1) ->
  row_at (foldl (accumulate U V) g obs).1 u =
  foldl row_add (row_at g.1 u) (user_terms U V obs u).
Proof.
  intros Hobs. revert g. induction Hobs as [|o obs Ho Hobs IH]; intros g Hu; [done|].
  simpl. rewrite IH by (unfold accumulate; simpl; by rewrite length_insert).
  unfold user_terms. destruct (decide (o.1.1 = u)) as [Heq|Hne].
  - rewrite filter_cons_True by done. simpl. f_equal.
    rewrite Heq. by rewrite row_at_insert_eq.
  - rewrite filter_cons_False by done. f_equal. simpl.
    apply row_at_insert_ne; [lia|done|done].
Qed.

Lemma accumulate_movie_row U V (obs : list (Z * Z * F)) g (m : Z) :
  Forall (fun o => 0 <= o.1.2) obs ->
  0 <= m < Z.of_nat (length g.2) ->
  row_at (foldl (accumulate U V) g obs).2 m =
  foldl row_add (row_at g.2 m) (movie_terms U V obs m).
Proof.
  intros Hobs. revert g. induction Hobs as [|o obs Ho Hobs IH]; intros g Hm; [done|].
  simpl. rewrite IH by (unfold accumulate; simpl; by rewrite length_insert).
  unfold movie_terms. destruct (decide (o.1.2 = m)) as [Heq|Hne].
  - rewrite filter_cons_True by done. simpl. f_equal.
    rewrite Heq. by rewrite row_at_insert_eq.
  - rewrite filter_cons_False by done. f_equal. simpl.
    apply row_at_insert_ne; [lia|done|done].
Qed.

Lemma zeros_like_row (n K : nat) U (u : Z) :
  rect n K U -> 0 <= u < Z.of_nat n -> row_at (zeros_like U) u = zero_row K.
Proof.
  intros [Hn HK] Hu. unfold row_at, zeros_like. rewrite list_lookup_fmap.
  destruct (lookup_lt_is_Some_2 U (Z.to_nat u)) as [r Hr]; [lia|].
  rewrite Hr. simpl. rewrite Forall_lookup in HK. specialize (HK _ _ Hr).
  subst K. unfold zero_row. clear. induction r; simpl; by f_equal.
Qed.

Lemma mat_div_lookup (G : list (list F)) (n : Z) (u : nat) (r : list F) :
  G !! u = Some r ->
  mat_div G n !! u = Some ((fun x => fdiv x (of_int n)) <$> r).
Proof. intros Hr. unfold mat_div. by rewrite list_lookup_fmap, Hr. Qed.

Lemma observations_nonneg df U V :
  valid_indices df U V ->
  Forall (fun o => 0 <= o.1.1) (observations df) /\
  Forall (fun o => 0 <= o.1.2) (observations df).
Proof.
  intros [Hu Hm]. rewrite Forall_lookup in Hu. rewrite Forall_lookup in Hm.
  split; apply Forall_lookup; intros k [[u m] r] Ho;
    apply observations_lookup in Ho as (Hku & Hkm & _); simpl.
  - apply (Hu _ _ Hku).
  - apply (Hm _ _ Hkm).
Qed.

Lemma user_terms_unobserved U V df (u : Z) :
  u ∉ userId df -> user_terms U V (observations df) u = [].
Proof.
  intros Hu. unfold user_terms.
  assert (filter (fun o : Z * Z * F => o.1.1 = u) (observations df) = []) as ->; [|done].
  apply filter_none, Forall_lookup. intros k [[u' m] r] Ho Heq. simpl in *. subst u'.
  apply observations_lookup in Ho as (Hku & _).
  apply Hu. by eapply list_elem_of_lookup_2.
Qed.

Lemma movie_terms_unobserved U V df (m : Z) :
  m ∉ movieId df -> movie_terms U V (observations df) m = [].
Proof.
  intros Hm. unfold movie_terms.
  assert (filter (fun o : Z * Z * F => o.1.2 = m) (observations df) = []) as ->; [|done].
  apply filter_none, Forall_lookup. intros k [[u m'] r] Ho Heq. simpl in *. subst m'.
  apply observations_lookup in Ho as (_ & Hkm & _).
  apply Hm. by eapply list_elem_of_lookup_2.
Qed.

(** The rows of the gradient, on a valid frame. *)
Lemma gradient_rows df Y U V (nu nv K : nat) :
  wf_frame df -> default_index df -> valid_indices df U V ->
  rect nu K U -> rect nv K V ->
  exists grad_user grad_movie,
    gradient df Y U V = Ok (grad_user, grad_movie) /\
    length grad_user = nu /\ length grad_movie = nv /\
    (forall u : nat, (u < nu)%nat ->
       grad_user !! u =
       Some (mean_of_terms K (Z.of_nat (len df))
               (user_terms U V (observations df) (Z.of_nat u)))) /\
    (forall m : nat, (m < nv)%nat ->
       grad_movie !! m =
       Some (mean_of_terms K (Z.of_nat (len df))
               (movie_terms U V (observations df) (Z.of_nat m)))).
Proof.
  intros Hwf Hidx Hv HU HV. eexists _, _.
  split; [by apply gradient_eq|].
  destruct (accumulate_length U V (zeros_like U, zeros_like V)
              (observations df)) as [Hl1 Hl2]. simpl in Hl1, Hl2.
  rewrite zeros_like_length in Hl1. rewrite zeros_like_length in Hl2.
  destruct (observations_nonneg df U V Hv) as [Hnu Hnm].
  pose proof HU as [HnU _]. pose proof HV as [HnV _].
  rewrite !mat_div_length, Hl1, Hl2. repeat split; [done|done| |].
  - intros u Hu.
    pose proof (accumulate_user_row U V (observations df)
                  (zeros_like U, zeros_like V) (Z.of_nat u) Hnu) as Hrow.
    simpl in Hrow. rewrite zeros_like_length in Hrow.
    specialize (Hrow ltac:(lia)).
    rewrite (zeros_like_row nu K U) in Hrow by (done || lia).
    unfold row_at in Hrow. rewrite Nat2Z.id in Hrow.
    destruct (lookup_lt_is_Some_2
                (foldl (accumulate U V) (zeros_like U, zeros_like V)
                   (observations df)).1 u) as [r Hr]; [lia|].
    rewrite Hr in Hrow. simpl in Hrow. subst r.
    by rewrite (mat_div_lookup _ _ _ _ Hr).
  - intros m Hm.
    pose proof (accumulate_movie_row U V (observations df)
                  (zeros_like U, zeros_like V) (Z.of_nat m) Hnm) as Hrow.
    simpl in Hrow. rewrite zeros_like_length in Hrow.
    specialize (Hrow ltac:(lia)).
    rewrite (zeros_like_row nv K V) in Hrow by (done || lia).
    unfold row_at in Hrow. rewrite Nat2Z.id in Hrow.
    destruct (lookup_lt_is_Some_2
                (foldl (accumulate U V) (zeros_like U, zeros_like V)
                   (observations df)).2 m) as [r Hr]; [lia|].
    rewrite Hr in Hrow. simpl in Hrow. subst r.
    by rewrite (mat_div_lookup _ _ _ _ Hr).
Qed.

End AccumulationFacts.

(** ** The sparse matrix builder *)

Lemma filter_unique {A} (P : A -> Prop) `{forall x, Decision (P x)}
    (l : list A) (i : nat) (x : A) :
  l !! i = Some x -> P x ->
  (forall j y, l !! j = Some y -> P y -> j = i) ->
  filter P l = [x].
Proof.
  intros Hi HP Honly.
  rewrite <- (take_drop_middle l i x Hi), filter_app, filter_cons_True by done.
  rewrite !filter_none; [done| |].
  - apply Forall_lookup. intros j y Hj Hy.
    rewrite lookup_drop in Hj. specialize (Honly _ _ Hj Hy). lia.
  - apply Forall_lookup. intros j y Hj Hy.
    pose proof (lookup_lt_Some _ _ _ Hj) as Hlt. rewrite length_take in Hlt.
    rewrite lookup_take_lt in Hj by lia.
    specialize (Honly _ _ Hj Hy). lia.
Qed.

Section SparseFacts.
Context {F : Type} `{Arith F}.

Lemma sum_into_Some (x : F) (vs : list F) :
  sum_into (Some x) vs = Some (foldl fadd x vs).
Proof. revert x. induction vs as [|v vs IH]; intros x; [done|]. apply IH. Qed.

Lemma sum_into_None (vs : list F) :
  default fzero (sum_into None vs) = np_sum vs.
Proof. destruct vs as [|v vs]; [done|]. simpl. by rewrite sum_into_Some. Qed.

Lemma coo_fold_lookup (triples : list (Z * Z * F)) (m0 : gmap (Z * Z) F) (r c : Z) :
  foldl coo_add m0 triples !! (r, c) =
  sum_into (m0 !! (r, c)) (values_at triples r c).
Proof.
  revert m0. induction triples as [|[[r' c'] v] triples IH]; intros m0; [done|].
  simpl. rewrite IH. unfold values_at.
  destruct (decide ((r', c') = (r, c))) as [Heq|Hne].
  - rewrite filter_cons_True by done. injection Heq as -> ->.
    simpl. by rewrite lookup_insert_eq.
  - rewrite filter_cons_False by done. by rewrite lookup_insert_ne.
Qed.

Lemma observations_in_shape (df : DataFrame Z F) (U V : list (list F)) :
  valid_indices df U V ->
  Forall (in_shape (Z.of_nat (length U)) (Z.of_nat (length V))) (observations df).
Proof.
  intros [Hu Hm]. rewrite Forall_lookup in Hu. rewrite Forall_lookup in Hm.
  apply Forall_lookup. intros k [[u m] r] Ho.
  apply observations_lookup in Ho as (Hku & Hkm & _). simpl.
  split; [apply (Hu _ _ Hku)|apply (Hm _ _ Hkm)].
Qed.

Lemma df2matrix_in_shape (df : DataFrame Z F) (nrows ncols : Z) :
  0 <= nrows -> 0 <= ncols ->
  Forall (in_shape nrows ncols) (observations df) ->
  df2matrix df nrows ncols =
  Ok (mkCsc (nrows, ncols) (foldl coo_add ∅ (observations df))).
Proof.
  intros Hr Hc Hall. unfold df2matrix, sparse_csc_matrix.
  rewrite decide_True by done. fold (observations df).
  by rewrite decide_True.
Qed.

(** C3, as the code has it.  On a frame whose indices lie in the shape,
    [df2matrix] returns a matrix of that shape whose entry at every
    coordinate is the sum, in input order, of the values given there
    (zero when there is none); hence the entry of a coordinate given once
    is its value, while values sharing a coordinate are accumulated. *)
Theorem df2matrix_sums_shared_coordinates (df : DataFrame Z F) (nrows ncols : Z) :
  wf_frame df -> 0 <= nrows -> 0 <= ncols ->
  Forall (in_shape nrows ncols) (observations df) ->
  exists M,
    df2matrix df nrows ncols = Ok M /\
    shape M = (nrows, ncols) /\
    (forall r c, sp_get M r c = np_sum (values_at (observations df) r c)) /\
    (forall i u m v,
       observations df !! i = Some (u, m, v) ->
       (forall j o, observations df !! j = Some o -> o.1 = (u, m) -> j = i) ->
       sp_get M u m = v).
Proof.
  intros _ Hr Hc Hall. eexists. split; [by apply df2matrix_in_shape|].
  split; [done|].
  assert (Hget : forall r c,
    sp_get (mkCsc (nrows, ncols) (foldl coo_add ∅ (observations df))) r c
    = np_sum (values_at (observations df) r c)).
  { intros r c. unfold sp_get. simpl.
    by rewrite coo_fold_lookup, lookup_empty, sum_into_None. }
  split; [done|].
  intros i u m v Hi Honly. rewrite Hget. unfold values_at.
  by rewrite (filter_unique _ _ i (u, m, v) Hi eq_refl Honly).
Qed.

End SparseFacts.

(** ** Claims on the gradient and on invalid indices *)

Section GradientClaims.
Context {F : Type} `{Arith F}.

Implicit Types (U V : list (list F)) (df : DataFrame Z F).


(** C4, as the code has it.  When some index of the frame lies outside
    [-n, n), for [n] the number of rows of its factor matrix, [cost] and
    [gradient] raise [IndexError]; an index in [-n, 0), the sentinel -1
    among them, is read as the row [n + index]. *)
Theorem index_outside_wrap_range_raises df Y U V :
  Exists (fun i => ~ (- Z.of_nat (length U) <= i < Z.of_nat (length U)))
         (userId df) \/
  Exists (fun i => ~ (- Z.of_nat (length V) <= i < Z.of_nat (length V)))
         (movieId df) ->
  predict (userId df) (movieId df) U V = Raise IndexError /\
  cost df U V = Raise IndexError /\
  gradient df Y U V = Raise IndexError /\
  (forall (A : list (list F)) (i : Z),
     - Z.of_nat (length A) <= i < 0 ->
     getrow A i = Ok (row_at A (Z.of_nat (length A) + i))).
Proof.
  intros Hout. unfold cost, gradient.
  rewrite (predict_outside _ _ _ _ Hout).
  repeat split. apply getrow_wraps.
Qed.

End GradientClaims.

(** ** The optimiser *)

Section OptimiserFacts.
Context {F : Type} `{Arith F}.

Implicit Types (U V : list (list F)) (df : DataFrame Z F) (σ : store F).

Lemma gradient_length df Y U V :
  wf_frame df -> default_index df -> valid_indices df U V ->
  exists grad_user grad_movie,
    gradient df Y U V = Ok (grad_user, grad_movie) /\
    length grad_user = length U /\ length grad_movie = length V.
Proof.
  intros Hwf Hidx Hv. eexists _, _. split; [by apply gradient_eq|].
  destruct (accumulate_length U V (zeros_like U, zeros_like V)
              (observations df)) as [Hl1 Hl2]. simpl in Hl1, Hl2.
  by rewrite !mat_div_length, Hl1, Hl2, !zeros_like_length.
Qed.

Lemma update_velocity_length (velocity grad : list (list F)) (n : nat) :
  length velocity = n -> length grad = n ->
  length (update_velocity velocity grad) = n.
Proof.
  intros Hv Hg. unfold update_velocity, mat_add, mat_scale.
  rewrite length_zip_with, !length_fmap. lia.
Qed.

Lemma descent_length (A velocity : list (list F)) (c : F) (n : nat) :
  length A = n -> length velocity = n ->
  length (mat_sub A (mat_scale c velocity)) = n.
Proof.
  intros HA Hv. unfold mat_sub, mat_scale.
  rewrite length_zip_with, !length_fmap. lia.
Qed.

(** The loop returns on a valid frame, whether or not the two references
    are the same array, and writes behind these two references only. *)
Lemma gd_loop_returns (N : nat) df Y (ru rm : nat) (lr : F) (nu nv : nat) :
  wf_frame df -> default_index df ->
  Forall (fun i => 0 <= i < Z.of_nat nu) (userId df) ->
  Forall (fun i => 0 <= i < Z.of_nat nv) (movieId df) ->
  forall vu vm σ,
    length (σ ru) = nu -> length (σ rm) = nv ->
    length vu = nu -> length vm = nv ->
    exists σ', gd_loop N df Y ru rm lr vu vm σ = Ok σ' /\
               (forall l, l <> ru -> l <> rm -> σ' l = σ l).
Proof.
  intros Hwf Hidx Hvu Hvm. induction N as [|N IH]; intros vu vm σ Hu Hm Hlu Hlm.
  - by exists σ.
  - cbn [gd_loop].
    destruct (gradient_length df Y (σ ru) (σ rm) Hwf Hidx)
      as (gu & gm & -> & Hgu & Hgm).
    { split; [by rewrite Hu|by rewrite Hm]. }
    cbn [mbind result_bind].
    set (vu' := update_velocity vu gu). set (vm' := update_velocity vm gm).
    assert (length vu' = nu) by (apply update_velocity_length; congruence).
    assert (length vm' = nv) by (apply update_velocity_length; congruence).
    set (σ1 := <[ru := mat_sub (σ ru) (mat_scale lr vu')]> σ).
    set (σ2 := <[rm := mat_sub (σ1 rm) (mat_scale lr vm')]> σ1).
    assert (Hσ1u : length (σ1 ru) = nu).
    { subst σ1. rewrite fn_lookup_insert. by apply descent_length. }
    assert (Hσ1m : length (σ1 rm) = nv).
    { destruct (decide (ru = rm)) as [<-|Hne]; [congruence|].
      subst σ1. by rewrite fn_lookup_insert_ne. }
    assert (Hσ2m : length (σ2 rm) = nv).
    { subst σ2. rewrite fn_lookup_insert. by apply descent_length. }
    assert (Hσ2u : length (σ2 ru) = nu).
    { destruct (decide (rm = ru)) as [<-|Hne]; [congruence|].
      subst σ2. by rewrite fn_lookup_insert_ne. }
    destruct (IH vu' vm' σ2 Hσ2u Hσ2m) as (σ' & Hrun & Hframe); [done|done|].
    exists σ'. split; [done|].
    intros l Hlu' Hlm'. rewrite Hframe by done.
    subst σ2 σ1. by rewrite !fn_lookup_insert_ne.
Qed.

(** With two distinct references the loop follows the transitions of the
    state machine, raising when a transition raises. *)
Lemma gd_loop_simulates (N : nat) df Y (ru rm : nat) (lr : F) :
  ru <> rm ->
  forall (s : opt_state) σ,
    σ ru = st_user s -> σ rm = st_movie s ->
    match iterate N (transition df Y lr) s with
    | Ok s' =>
        exists σ',
          gd_loop N df Y ru rm lr (st_vel_user s) (st_vel_movie s) σ = Ok σ' /\
          σ' ru = st_user s' /\ σ' rm = st_movie s'
    | Raise e =>
        gd_loop N df Y ru rm lr (st_vel_user s) (st_vel_movie s) σ = Raise e
    end.
Proof.
  intros Hne. induction N as [|N IH]; intros s σ Hu Hm.
  - simpl. by exists σ.
  - cbn [iterate gd_loop]. rewrite Hu, Hm.
    destruct (gradient df Y (st_user s) (st_movie s)) as [[gu gm]|e] eqn:Hg.
    + set (s1 := mkState
                   (mat_sub (st_user s)
                      (mat_scale lr (update_velocity (st_vel_user s) gu)))
                   (mat_sub (st_movie s)
                      (mat_scale lr (update_velocity (st_vel_movie s) gm)))
                   (update_velocity (st_vel_user s) gu)
                   (update_velocity (st_vel_movie s) gm)).
      assert (transition df Y lr s = Ok s1) as ->
        by (unfold transition; by rewrite Hg).
      cbn [mbind result_bind]. apply (IH s1).
      * rewrite fn_lookup_insert_ne by done. by rewrite fn_lookup_insert.
      * rewrite fn_lookup_insert. by rewrite fn_lookup_insert_ne, Hm.
    + assert (transition df Y lr s = Raise e) as ->
        by (unfold transition; by rewrite Hg).
      reflexivity.
Qed.

End OptimiserFacts.

Section OptimiserClaims.
Context {F : Type} `{Arith F}.

Implicit Types (df : DataFrame Z F) (σ : store F).

(** The loop writes behind its two references only. *)
Lemma gd_loop_frame (N : nat) df Y (ru rm : nat) (lr : F) :
  forall vu vm σ σ',
    gd_loop N df Y ru rm lr vu vm σ = Ok σ' ->
    forall l, l <> ru -> l <> rm -> σ' l = σ l.
Proof.
  induction N as [|N IH]; intros vu vm σ σ' Hrun l Hu Hm.
  - by injection Hrun as <-.
  - cbn [gd_loop] in Hrun.
    destruct (gradient df Y (σ ru) (σ rm)) as [[gu gm]|e]; [|discriminate].
    cbn [mbind result_bind] in Hrun.
    rewrite (IH _ _ _ _ Hrun l Hu Hm).
    by rewrite !fn_lookup_insert_ne.
Qed.

(** On a valid frame the optimiser returns the two references it was
    given. *)
Lemma gradient_descent_returns df (ru rm : nat) (N : nat) (lr : F) σ :
  wf_frame df -> default_index df -> valid_indices df (σ ru) (σ rm) ->
  exists σ', gradient_descent df ru rm N lr σ = Ok ((ru, rm), σ').
Proof.
  intros Hwf Hidx Hv.
  pose proof (df2matrix_in_shape df _ _ (Nat2Z.is_nonneg _) (Nat2Z.is_nonneg _)
                (observations_in_shape df _ _ Hv)) as HY.
  destruct Hv as [Hvu Hvm].
  destruct (gd_loop_returns N df
              (mkCsc (Z.of_nat (length (σ ru)), Z.of_nat (length (σ rm)))
                 (foldl coo_add ∅ (observations df)))
              ru rm lr _ _ Hwf Hidx Hvu Hvm
              (zeros_like (σ ru)) (zeros_like (σ rm)) σ)
    as (σ' & Hrun & _);
    [done|done|apply zeros_like_length|apply zeros_like_length|].
  exists σ'. unfold gradient_descent. rewrite HY. cbn [mbind result_bind].
  by rewrite Hrun.
Qed.

(** With two distinct references a call is the check of the sparse matrix
    builder followed by [N] transitions from zero velocities. *)
Lemma gradient_descent_simulates df (ru rm : nat) (N : nat) (lr : F) σ :
  ru <> rm ->
  match df2matrix df (Z.of_nat (length (σ ru))) (Z.of_nat (length (σ rm))) with
  | Raise e => gradient_descent df ru rm N lr σ = Raise e
  | Ok Y =>
      match iterate N (transition df Y lr) (initial_state (σ ru) (σ rm)) with
      | Raise e => gradient_descent df ru rm N lr σ = Raise e
      | Ok s =>
          exists σ',
            gradient_descent df ru rm N lr σ = Ok ((ru, rm), σ') /\
            σ' ru = st_user s /\ σ' rm = st_movie s
      end
  end.
Proof.
  intros Hne. unfold gradient_descent.
  destruct (df2matrix df _ _) as [Y|e]; [|done].
  cbn [mbind result_bind].
  pose proof (gd_loop_simulates N df Y ru rm lr Hne
                (initial_state (σ ru) (σ rm)) σ eq_refl eq_refl) as Hsim.
  change (st_vel_user (initial_state (σ ru) (σ rm)))
    with (zeros_like (σ ru)) in Hsim.
  change (st_vel_movie (initial_state (σ ru) (σ rm)))
    with (zeros_like (σ rm)) in Hsim.
  destruct (iterate N (transition df Y lr) (initial_state (σ ru) (σ rm)))
    as [s|e].
  - destruct Hsim as (σ' & -> & Hu & Hm). by exists σ'.
  - by rewrite Hsim.
Qed.




End OptimiserClaims.

(** ** The claims on concrete inputs *)

Section Concrete.
Import Data.

(** Two rows of binary64 values are distinct when their decoded forms
    are. *)
Lemma row_neq (r s : list float) :
  Prim2SF <$> r <> Prim2SF <$> s -> r <> s.
Proof. intros Hne ->. by apply Hne. Qed.

(** The encoder on a column with a repeated identifier, and on a column
    with an identifier the reference column does not have. *)
Example proc_col_7_3_7_9 :
  (fun r => (r.1.2, r.2)) <$> proc_col [7; 3; 7; 9] = Ok ([0; 1; 0; 2], 3).
Proof. reflexivity. Qed.

Example encode_new_data_unseen :
  userId <$> encode_new_data (mkFrame [0; 1; 2] [9; 4; 7] [3; 3; 3] [1%float; 1%float; 1%float])
                             (mkFrame [0; 1; 2] [7; 3; 9] [3; 3; 3] [1%float; 1%float; 1%float])
  = Ok [2; -1; 0].
Proof. reflexivity. Qed.

Example gradient_frame2 :
  gradient frame2 Y0 emb2 emb2 =
  Ok ([[30%float; 40%float]; [0%float; 0%float]],
      [[0%float; 0%float]; [10%float; 20%float]]).
Proof. vm_compute. reflexivity. Qed.

Example cost_frame2 : cost frame2 emb2 emb2 = Ok 50%float.
Proof. vm_compute. reflexivity. Qed.

(** In binary64 the weight [1 - 0.9] of the gradient is the neighbour of
    the literal 0.1. *)
Example weight_binary64 :
  Prim2SF (fsub (of_int 1) momentum) <> Prim2SF (of_lit (1 # 10) : float).
Proof. vm_compute. discriminate. Qed.

Lemma frame2_wf : wf_frame frame2.
Proof.
  repeat split; try reflexivity.
  apply NoDup_cons. split; [by intros [?|[]%elem_of_nil]%elem_of_cons|].
  apply NoDup_singleton.
Defined.

(** Bounds on every entry of a concrete list. *)
Ltac each_entry :=
  repeat first [apply Forall_nil_2 | apply Forall_cons_2; [simpl; lia|]].

Lemma frame2_valid : valid_indices frame2 emb2 emb2.
Proof. split; each_entry. Defined.

Lemma emb2_rect : rect 2 2 emb2.
Proof. split; [reflexivity|each_entry]. Defined.

Lemma empty_frame_wf : wf_frame empty_frame.
Proof. repeat split; constructor. Defined.



Lemma store2_valid : valid_indices frame2 (store2 0%nat) (store2 1%nat).
Proof. split; each_entry. Defined.

Lemma store2_rect : rect 2 2 (store2 1%nat).
Proof. split; [reflexivity|each_entry]. Defined.





Lemma overflow_frame_outside :
  Exists (fun i => ~ (- Z.of_nat (length emb2) <= i < Z.of_nat (length emb2)))
         (userId overflow_frame) \/
  Exists (fun i => ~ (- Z.of_nat (length emb2) <= i < Z.of_nat (length emb2)))
         (movieId overflow_frame).
Proof. left. apply Exists_cons_hd. simpl. lia. Defined.

(** C4 on a frame whose user index 2 is past the two rows. *)
Lemma index_outside_wrap_range_raises_witness :
  predict (userId overflow_frame) (movieId overflow_frame) emb2 emb2
  = Raise IndexError /\
  cost overflow_frame emb2 emb2 = Raise IndexError /\
  gradient overflow_frame Y0 emb2 emb2 = Raise IndexError /\
  (forall (A : list (list float)) (i : Z),
     - Z.of_nat (length A) <= i < 0 ->
     getrow A i = Ok (row_at A (Z.of_nat (length A) + i))).
Proof.
  exact (index_outside_wrap_range_raises overflow_frame Y0 emb2 emb2
           overflow_frame_outside).
Defined.

(** C4 as stated fails: with the user index -1, [cost] and [gradient]
    raise nothing; they read the last row of the user matrix, and
    [gradient] writes into the last row of its accumulator. *)
Lemma sentinel_index_is_not_refused :
  cost sentinel_frame emb2 emb2 = Ok 36%float /\
  gradient sentinel_frame Y0 emb2 emb2 =
  Ok ([[0%float; 0%float]; [12%float; 24%float]],
      [[36%float; 48%float]; [0%float; 0%float]]).
Proof. split; vm_compute; reflexivity. Qed.

Lemma frame2_in_shape : Forall (in_shape 2 2) (observations frame2).
Proof. repeat first [apply Forall_nil_2 | apply Forall_cons_2; [simpl; lia|]]. Defined.

(** C3 on [frame2], whose two coordinates are distinct. *)
Lemma df2matrix_sums_shared_coordinates_witness :
  exists M,
    df2matrix frame2 2 2 = Ok M /\
    shape M = (2, 2) /\
    (forall r c, sp_get M r c = np_sum (values_at (observations frame2) r c)) /\
    (forall i u m v,
       observations frame2 !! i = Some (u, m, v) ->
       (forall j o, observations frame2 !! j = Some o -> o.1 = (u, m) -> j = i) ->
       sp_get M u m = v).
Proof.
  apply (df2matrix_sums_shared_coordinates frame2 2 2 frame2_wf); [lia|lia|].
  exact frame2_in_shape.
Defined.

(** C3 as stated fails: the values 1 and 2 given at the coordinate (0, 0)
    make the entry 3, not the value 2 given last. *)
Lemma shared_coordinate_is_summed :
  exists M,
    df2matrix repeated_frame 1 1 = Ok M /\
    observations repeated_frame = [(0, 0, 1%float); (0, 0, 2%float)] /\
    sp_get M 0 0 = 3%float /\
    [sp_get M 0 0] <> [2%float].
Proof.
  eexists. split; [vm_compute; reflexivity|]. split; [reflexivity|].
  split; [vm_compute; reflexivity|].
  apply row_neq. vm_compute. discriminate.
Qed.

End Concrete.

(** * Further properties *)

(** ** The encoder and the frames it produces *)

Section EncoderExtras.
Context {Id : Type} `{Countable Id}.

Lemma code_known (col : list Id) (x : Id) :
  x ∈ col ->
  exists j : Z,
    dict_comp ∅ (enumerate (unique col)) !! x = Some j /\
    0 <= j < Z.of_nat (size (list_to_set col : gset Id)).
Proof.
  intros [j Hj]%unique_elem%list_elem_of_lookup. exists (Z.of_nat j). split.
  - apply name2idx_lookup. eauto.
  - apply lookup_lt_Some in Hj. rewrite unique_length in Hj. lia.
Qed.

Lemma code_unknown (col : list Id) (x : Id) :
  x ∉ col -> dict_comp ∅ (enumerate (unique col)) !! x = None.
Proof.
  intros Hx. destruct (dict_comp ∅ (enumerate (unique col)) !! x) as [i|] eqn:Hi;
    [|done].
  apply name2idx_lookup in Hi as (j & Hj & _).
  exfalso. apply Hx, unique_elem. by eapply list_elem_of_lookup_2.
Qed.

(** The codes of a column under the map of a reference column. *)
Lemma apply_encoding_codes (train col : list Id) (i : nat) (x : Id) :
  col !! i = Some x ->
  exists c,
    apply_encoding (dict_comp ∅ (enumerate (unique train))) col !! i = Some c /\
    (x ∈ train -> 0 <= c < Z.of_nat (size (list_to_set train : gset Id))) /\
    (x ∉ train -> c = -1).
Proof.
  intros Hx. rewrite apply_encoding_lookup, Hx. simpl.
  eexists. split; [reflexivity|]. split.
  - intros Hin. destruct (code_known train x Hin) as (j & -> & Hj). done.
  - intros Hout. by rewrite code_unknown.
Qed.

(** X1.  [encode_new_data] keeps the row labels and the ratings, gives an
    identifier that occurs in the reference column a code in [0, n), for
    [n] the number of distinct identifiers of that column, and gives -1 to
    an identifier that does not occur there: -1 marks exactly the unseen
    identifiers. *)
Theorem encode_new_data_marks_unseen {F} (df_val df_train : DataFrame Id F) :
  exists df,
    encode_new_data df_val df_train = Ok df /\
    df_index df = df_index df_val /\ rating df = rating df_val /\
    (forall i x, userId df_val !! i = Some x ->
       exists c, userId df !! i = Some c /\
         (x ∈ userId df_train ->
          0 <= c < Z.of_nat (size (list_to_set (userId df_train) : gset Id))) /\
         (x ∉ userId df_train -> c = -1)) /\
    (forall i x, movieId df_val !! i = Some x ->
       exists c, movieId df !! i = Some c /\
         (x ∈ movieId df_train ->
          0 <= c < Z.of_nat (size (list_to_set (movieId df_train) : gset Id))) /\
         (x ∉ movieId df_train -> c = -1)).
Proof.
  eexists. split; [unfold encode_new_data; by rewrite !proc_col_eq|].
  split; [done|]. split; [done|].
  split; intros i x Hx; by apply apply_encoding_codes.
Qed.

(** X2.  The frame of [encode_data] has the row labels and ratings of its
    input and is well formed when the input is; its codes are rows of any
    pair of factor matrices that have at least [num_users] and
    [num_movies] rows. *)
Theorem encode_data_fits_factor_matrices {F} (df : DataFrame Id F) :
  exists df' num_users num_movies,
    encode_data df = Ok (df', num_users, num_movies) /\
    num_users = Z.of_nat (size (list_to_set (userId df) : gset Id)) /\
    num_movies = Z.of_nat (size (list_to_set (movieId df) : gset Id)) /\
    df_index df' = df_index df /\ rating df' = rating df /\
    (wf_frame df -> wf_frame df') /\
    (forall U V : list (list F),
       num_users <= Z.of_nat (length U) -> num_movies <= Z.of_nat (length V) ->
       valid_indices df' U V).
Proof.
  eexists _, _, _. split; [unfold encode_data; by rewrite !proc_col_eq|].
  repeat split; simpl.
  - destruct H0 as (Hu & _). unfold apply_encoding, fillna, series_map.
    by rewrite !length_fmap.
  - destruct H0 as (_ & Hm & _). unfold apply_encoding, fillna, series_map.
    by rewrite !length_fmap.
  - by destruct H0 as (_ & _ & Hr & _).
  - by destruct H0 as (_ & _ & _ & Hnd).
  - apply Forall_lookup. intros i c Hc.
    rewrite apply_encoding_lookup in Hc.
    destruct (userId df !! i) as [x|] eqn:Hx; [|done]. simpl in Hc.
    destruct (code_known (userId df) x) as (j & Hj & Hrange);
      [by eapply list_elem_of_lookup_2|].
    rewrite Hj in Hc. simpl in Hc. injection Hc as <-. lia.
  - apply Forall_lookup. intros i c Hc.
    rewrite apply_encoding_lookup in Hc.
    destruct (movieId df !! i) as [x|] eqn:Hx; [|done]. simpl in Hc.
    destruct (code_known (movieId df) x) as (j & Hj & Hrange);
      [by eapply list_elem_of_lookup_2|].
    rewrite Hj in Hc. simpl in Hc. injection Hc as <-. lia.
Qed.

End EncoderExtras.

Lemma unique_aux_fmap {A B} `{Countable A, Countable B} (f : A -> B)
    (seen : gset A) (seen' : gset B) (col : list A) :
  (forall x y, x ∈ col -> y ∈ col -> f x = f y -> x = y) ->
  (forall x, x ∈ col -> (f x ∈ seen' <-> x ∈ seen)) ->
  unique_aux seen' (f <$> col) = f <$> unique_aux seen col.
Proof.
  revert seen seen'. induction col as [|x col IH]; intros seen seen' Hinj Hseen; [done|].
  cbn [fmap list_fmap unique_aux].
  assert (Hinj' : forall a b, a ∈ col -> b ∈ col -> f a = f b -> a = b).
  { intros a b Ha Hb. apply Hinj; by apply list_elem_of_further. }
  destruct (decide (x ∈ seen)) as [Hx|Hx].
  - rewrite decide_True by (apply Hseen; [apply list_elem_of_here|done]).
    apply IH; [done|]. intros y Hy. apply Hseen. by apply list_elem_of_further.
  - rewrite decide_False by (rewrite Hseen; [done|apply list_elem_of_here]).
    cbn [fmap list_fmap]. f_equal. apply IH; [done|].
    intros y Hy. rewrite !elem_of_union, !elem_of_singleton.
    rewrite (Hseen y) by (by apply list_elem_of_further).
    split; (intros [Heq|Hin]; [left|by right]).
    + apply Hinj; [by apply list_elem_of_further|apply list_elem_of_here|done].
    + by rewrite Heq.
Qed.

Section ReEncoding.
Context {Id : Type} `{Countable Id}.

(** The code [proc_col] gives to an identifier of the column. *)
Lemma code_of_unique (col : list Id) (k : nat) (x : Id) :
  unique col !! k = Some x ->
  default (-1) (dict_comp ∅ (enumerate (unique col)) !! x) = Z.of_nat k.
Proof.
  intros Hk. unfold enumerate.
  by rewrite (dict_comp_lookup _ 0 ∅ k x (unique_NoDup col) Hk).
Qed.

Lemma apply_encoding_fmap (m : gmap Id Z) (col : list Id) :
  apply_encoding m col = (fun x => default (-1) (m !! x)) <$> col.
Proof.
  unfold apply_encoding, fillna, series_map. by rewrite <- list_fmap_compose.
Qed.

(** The encoded column meets its codes in the order 0, 1, 2, ... *)
Lemma unique_encoded (col : list Id) :
  unique (apply_encoding (dict_comp ∅ (enumerate (unique col))) col)
  = Z.of_nat <$> seq 0 (length (unique col)).
Proof.
  set (m := dict_comp ∅ (enumerate (unique col))).
  rewrite apply_encoding_fmap. unfold unique at 1.
  rewrite (unique_aux_fmap (fun x => default (-1) (m !! x)) ∅ ∅ col).
  - fold (unique col). apply list_eq. intros k.
    rewrite !list_lookup_fmap.
    destruct (unique col !! k) as [x|] eqn:Hk; simpl.
    + rewrite lookup_seq_lt by (by eapply lookup_lt_Some).
      simpl. f_equal. by apply code_of_unique.
    + apply lookup_ge_None in Hk. by rewrite lookup_seq_ge.
  - intros x y [i Hi]%unique_elem%list_elem_of_lookup
                  [j Hj]%unique_elem%list_elem_of_lookup Heq.
    subst m. rewrite (code_of_unique col i x Hi), (code_of_unique col j y Hj) in Heq.
    apply Nat2Z.inj in Heq. subst j. congruence.
  - intros x _. set_solver.
Qed.

(** X3.  Encoding an encoded column changes nothing: [proc_col] applied
    to the column it produced returns the same column and the same count,
    and its map sends every code in [0, n) to itself. *)
Theorem proc_col_idempotent (col : list Id) :
  exists name2idx enc n,
    proc_col col = Ok (name2idx, enc, n) /\
    exists name2idx',
      proc_col enc = Ok (name2idx', enc, n) /\
      forall i j, name2idx' !! i = Some j <-> j = i /\ 0 <= i < n.
Proof.
  eexists _, _, _. split; [apply proc_col_eq|].
  set (m := dict_comp ∅ (enumerate (unique col))).
  set (enc := apply_encoding m col).
  set (m' := dict_comp ∅ (enumerate (unique enc))).
  assert (Hm' : forall i j, m' !! i = Some j <->
            j = i /\ 0 <= i < Z.of_nat (length (unique col))).
  { intros i j. subst m'. rewrite name2idx_lookup. subst enc m.
    rewrite unique_encoded. split.
    - intros (k & Hk & ->). rewrite list_lookup_fmap in Hk.
      destruct (seq 0 (length (unique col)) !! k) as [k'|] eqn:Hk'; [|done].
      apply lookup_seq in Hk' as [-> Hlt]. simpl in Hk. injection Hk as <-. lia.
    - intros (-> & Hi). exists (Z.to_nat i). split; [|lia].
      rewrite list_lookup_fmap, lookup_seq_lt by lia. simpl. f_equal. lia. }
  assert (Henc : apply_encoding m' enc = enc).
  { apply list_eq. intros k. rewrite apply_encoding_lookup.
    destruct (enc !! k) as [c|] eqn:Hc; [|done]. simpl. f_equal.
    subst enc. rewrite apply_encoding_lookup in Hc.
    destruct (col !! k) as [x|] eqn:Hx; [|done]. simpl in Hc.
    destruct (code_known col x) as (j & Hj & Hrange);
      [by eapply list_elem_of_lookup_2|].
    fold m in Hj. rewrite Hj in Hc. simpl in Hc. injection Hc as <-.
    rewrite <- unique_length in Hrange.
    destruct (Hm' j j) as [_ ->]; done. }
  exists m'. split.
  - rewrite (proc_col_eq enc). fold m'. rewrite Henc.
    do 3 f_equal. rewrite <- !unique_length. subst enc m.
    by rewrite unique_encoded, length_fmap, length_seq.
  - intros i j. rewrite Hm', <- unique_length. done.
Qed.

End ReEncoding.

(** ** Indices counted from the end *)

Lemma foldR_ext_inv {A B} (P : B -> Prop) (f g : B -> A -> result B)
    (l : list A) (b : B) :
  (forall b x, x ∈ l -> P b -> f b x = g b x) ->
  (forall b x b', x ∈ l -> P b -> f b x = Ok b' -> P b') ->
  P b -> foldR f b l = foldR g b l.
Proof.
  revert b. induction l as [|x l IH]; intros b Hfg Hinv Hb; [done|].
  simpl. rewrite <- (Hfg b x (list_elem_of_here _ _) Hb).
  destruct (f b x) as [b'|e] eqn:Hfb; [|done]. simpl.
  apply IH.
  - intros b0 y Hy. apply Hfg. by apply list_elem_of_further.
  - intros b0 y b1 Hy. apply Hinv. by apply list_elem_of_further.
  - by apply (Hinv b x b' (list_elem_of_here _ _) Hb).
Qed.

Section WrapFacts.
Context {F : Type} `{Arith F}.

Implicit Types (U V : list (list F)) (df : DataFrame Z F).

Lemma np_index_norm (n : nat) (i : Z) :
  - Z.of_nat n <= i < Z.of_nat n ->
  np_index n (norm_index n i) = np_index n i.
Proof.
  intros Hi. unfold norm_index. case_decide as Hneg; [|done].
  rewrite np_index_nonneg by lia. by rewrite np_index_wraps by lia.
Qed.

Lemma norm_index_range (n : nat) (i : Z) :
  - Z.of_nat n <= i < Z.of_nat n -> 0 <= norm_index n i < Z.of_nat n.
Proof. intros Hi. unfold norm_index. case_decide; lia. Qed.

Lemma getrow_norm (A : list (list F)) (n : nat) (i : Z) :
  length A = n -> - Z.of_nat n <= i < Z.of_nat n ->
  getrow A (norm_index n i) = getrow A i.
Proof. intros <- Hi. unfold getrow. by rewrite np_index_norm. Qed.

Lemma setrow_norm (A : list (list F)) (n : nat) (i : Z) (r : list F) :
  length A = n -> - Z.of_nat n <= i < Z.of_nat n ->
  setrow A (norm_index n i) r = setrow A i r.
Proof. intros <- Hi. unfold setrow. by rewrite np_index_norm. Qed.

Lemma take_rows_norm (A : list (list F)) (idx : list Z) :
  Forall (fun i => - Z.of_nat (length A) <= i < Z.of_nat (length A)) idx ->
  take_rows A (norm_index (length A) <$> idx) = take_rows A idx.
Proof.
  unfold take_rows. induction 1 as [|i idx Hi Hall IH]; [done|].
  cbn [fmap list_fmap mapM]. rewrite (getrow_norm A _ i eq_refl Hi).
  fold (fmap (M := list) (norm_index (length A)) idx). by rewrite IH.
Qed.

Lemma take_rows_wrap (A : list (list F)) (idx : list Z) :
  Forall (fun i => - Z.of_nat (length A) <= i < Z.of_nat (length A)) idx ->
  exists rs, take_rows A idx = Ok rs.
Proof.
  intros Hall. rewrite <- take_rows_norm by done.
  eexists. apply take_rows_nonneg.
  apply Forall_fmap. eapply Forall_impl; [exact Hall|].
  intros i Hi. by apply norm_index_range.
Qed.

Lemma predict_norm df U V :
  wrap_indices df U V ->
  predict (userId (normalise df U V)) (movieId (normalise df U V)) U V
  = predict (userId df) (movieId df) U V.
Proof.
  intros [Hu Hm]. unfold predict, normalise. cbn [userId movieId].
  by rewrite (take_rows_norm U _ Hu), (take_rows_norm V _ Hm).
Qed.

Lemma normalise_valid df U V :
  wrap_indices df U V -> valid_indices (normalise df U V) U V.
Proof.
  intros [Hu Hm]. split; cbn [normalise userId movieId];
    apply Forall_fmap; (eapply Forall_impl; [eassumption|]);
    intros i Hi; by apply norm_index_range.
Qed.

Lemma not_wrap_indices df U V :
  ~ wrap_indices df U V ->
  Exists (fun i => ~ (- Z.of_nat (length U) <= i < Z.of_nat (length U)))
         (userId df) \/
  Exists (fun i => ~ (- Z.of_nat (length V) <= i < Z.of_nat (length V)))
         (movieId df).
Proof.
  intros Hnot.
  destruct (decide (Forall (fun i => - Z.of_nat (length U) <= i < Z.of_nat (length U))
                      (userId df))) as [Hu|Hu].
  - right. apply not_Forall_Exists; [apply _|]. intros Hm. by apply Hnot.
  - left. by apply not_Forall_Exists; [apply _|].
Qed.


End WrapFacts.

(** ** The loop of the gradient on other frames *)

Lemma foldR_raises {A B} (P : B -> Prop) (e : exn) (f : B -> A -> result B)
    (l : list A) (b : B) :
  (forall b x, x ∈ l -> P b -> (exists b', f b x = Ok b' /\ P b') \/ f b x = Raise e) ->
  (exists x, x ∈ l /\ forall b, P b -> f b x = Raise e) ->
  P b -> foldR f b l = Raise e.
Proof.
  revert b. induction l as [|x l IH]; intros b Hstep (y & Hy & Hraise) Hb.
  - by apply elem_of_nil in Hy.
  - simpl. apply elem_of_cons in Hy as [->|Hy].
    + by rewrite Hraise.
    + destruct (Hstep b x (list_elem_of_here _ _) Hb) as [(b' & -> & Hb')| ->];
        [|done].
      simpl. apply IH; [|by exists y|done].
      intros b0 z Hz. apply Hstep. by apply list_elem_of_further.
Qed.

Lemma series_getitem_missing {A} (labels : list Z) (values : list A) (key : Z) :
  key ∉ labels -> series_getitem labels values key = Raise KeyError.
Proof.
  intros Hkey. unfold series_getitem.
  assert (list_find (fun l => l = key) labels = None) as ->; [|done].
  apply list_find_None, Forall_forall. intros l Hl ->. done.
Qed.

Lemma series_getitem_cases {A} (labels : list Z) (values : list A) (key : Z) :
  (exists v, series_getitem labels values key = Ok v) \/
  series_getitem labels values key = Raise KeyError.
Proof.
  unfold series_getitem.
  destruct (list_find _ labels) as [[pos l]|]; [|by right].
  destruct (values !! pos); [left; by eexists|by right].
Qed.

Section LoopFacts.
Context {F : Type} `{Arith F}.

Implicit Types (U V : list (list F)) (df : DataFrame Z F).

Lemma setrow_length (A : list (list F)) (i : Z) (r : list F) (A' : list (list F)) :
  setrow A i r = Ok A' -> length A' = length A.
Proof.
  unfold setrow. destruct (np_index (length A) i) as [k|e]; [|discriminate].
  simpl. intros [= <-]. apply length_insert.
Qed.

(** A turn of the loop keeps the shapes of the accumulators. *)
Lemma gradient_body_length df (diff : list F) U V g (idx : nat) g' :
  gradient_body df diff U V g idx = Ok g' ->
  length g'.1 = length g.1 /\ length g'.2 = length g.2.
Proof.
  destruct g as [gu gm]. unfold gradient_body. intros Hbody.
  repeat match type of Hbody with
         | context [mbind _ ?r] =>
             destruct r eqn:?; cbn [mbind result_bind] in Hbody;
             [|discriminate Hbody]
         end.
  injection Hbody as <-. simpl. split; by eapply setrow_length.
Qed.

Lemma gradient_body_norm df (diff : list F) U V g (idx : nat) :
  wrap_indices df U V ->
  length g.1 = length U -> length g.2 = length V ->
  gradient_body (normalise df U V) diff U V g idx
  = gradient_body df diff U V g idx.
Proof.
  intros [Hu Hm] Hg1 Hg2. destruct g as [gu gm]. simpl in Hg1, Hg2.
  unfold gradient_body, normalise. cbn [userId movieId df_index].
  rewrite !list_lookup_fmap.
  destruct (userId df !! idx) as [u|] eqn:Hku; [|done].
  destruct (movieId df !! idx) as [m|] eqn:Hkm; [|done].
  rewrite Forall_lookup in Hu. rewrite Forall_lookup in Hm.
  pose proof (Hu _ _ Hku) as Hur. pose proof (Hm _ _ Hkm) as Hmr.
  cbn [fmap option_fmap option_map from_option mbind result_bind].
  rewrite (getrow_norm gu (length U) u Hg1 Hur).
  rewrite (getrow_norm gm (length V) m Hg2 Hmr).
  rewrite (getrow_norm U (length U) u eq_refl Hur).
  rewrite (getrow_norm V (length V) m eq_refl Hmr).
  destruct (getrow gu u) as [ru|e]; [|done]. cbn [mbind result_bind].
  destruct (series_getitem (df_index df) diff (Z.of_nat idx)) as [d|e]; [|done].
  cbn [mbind result_bind].
  destruct (getrow V m) as [rv|e]; [|done]. cbn [mbind result_bind].
  rewrite (setrow_norm gu (length U) u _ Hg1 Hur).
  destruct (setrow gu u _) as [gu'|e]; [|done]. cbn [mbind result_bind].
  destruct (getrow gm m) as [rm|e]; [|done]. cbn [mbind result_bind].
  destruct (getrow U u) as [ruu|e]; [|done]. cbn [mbind result_bind].
  by rewrite (setrow_norm gm (length V) m _ Hg2 Hmr).
Qed.

Lemma gradient_norm df Y U V :
  wrap_indices df U V ->
  gradient (normalise df U V) Y U V = gradient df Y U V.
Proof.
  intros Hw. unfold gradient. rewrite (predict_norm df U V Hw).
  destruct (predict (userId df) (movieId df) U V) as [p|e]; [|done].
  cbn [mbind result_bind].
  change (rating (normalise df U V)) with (rating df).
  change (len (normalise df U V)) with (len df).
  rewrite (foldR_ext_inv
             (fun g => length g.1 = length U /\ length g.2 = length V)
             (gradient_body (normalise df U V) (zip_with fsub (rating df) p) U V)
             (gradient_body df (zip_with fsub (rating df) p) U V)); [done| | |].
  - intros g idx _ [Hg1 Hg2]. by apply gradient_body_norm.
  - intros g idx g' _ [Hg1 Hg2] Hbody.
    destruct (gradient_body_length _ _ _ _ _ _ _ Hbody) as [-> ->]. done.
  - simpl. by rewrite !zeros_like_length.
Qed.

Lemma normalise_wf df U V : wf_frame df -> wf_frame (normalise df U V).
Proof.
  intros (Hu & Hm & Hr & Hnd). unfold wf_frame, len, normalise.
  cbn [userId movieId rating df_index]. by rewrite !length_fmap.
Qed.


(** A turn of the loop on a valid frame returns or raises [KeyError]. *)
Lemma gradient_body_cases df (diff : list F) U V g (idx : nat) :
  wf_frame df -> valid_indices df U V -> (idx < len df)%nat ->
  length g.1 = length U -> length g.2 = length V ->
  ((exists g', gradient_body df diff U V g idx = Ok g' /\
               length g'.1 = length U /\ length g'.2 = length V) \/
   gradient_body df diff U V g idx = Raise KeyError) /\
  (Z.of_nat idx ∉ df_index df ->
   gradient_body df diff U V g idx = Raise KeyError).
Proof.
  intros (Hlu & Hlm & _) [Hvu Hvm] Hidx Hg1 Hg2. destruct g as [gu gm].
  simpl in Hg1, Hg2.
  destruct (lookup_lt_is_Some_2 (userId df) idx) as [u Hu]; [lia|].
  destruct (lookup_lt_is_Some_2 (movieId df) idx) as [m Hm]; [lia|].
  rewrite Forall_lookup in Hvu. rewrite Forall_lookup in Hvm.
  pose proof (Hvu _ _ Hu) as Hur. pose proof (Hvm _ _ Hm) as Hmr.
  unfold gradient_body. rewrite Hu, Hm.
  cbn [from_option mbind result_bind].
  rewrite (getrow_nonneg gu u) by lia. cbn [mbind result_bind].
  split.
  - destruct (series_getitem_cases (df_index df) diff (Z.of_nat idx))
      as [[d ->]| ->]; [|by right].
    left. cbn [mbind result_bind].
    rewrite (getrow_nonneg V m), (getrow_nonneg gm m), (getrow_nonneg U u) by lia.
    unfold setrow. rewrite !np_index_nonneg by lia.
    cbn [mbind result_bind]. eexists. split; [reflexivity|].
    simpl. by rewrite !length_insert.
  - intros Hmiss. by rewrite series_getitem_missing.
Qed.


End LoopFacts.

(** ** The sparse matrix builder on other inputs *)

Section BuilderFacts.
Context {F : Type} `{Arith F}.

Implicit Types (U V : list (list F)) (df : DataFrame Z F) (σ : store F).

Lemma take_rows_length (A : list (list F)) (idx : list Z) (rs : list (list F)) :
  take_rows A idx = Ok rs -> length rs = length idx.
Proof.
  unfold take_rows. revert rs. induction idx as [|i idx IH]; intros rs Hrs.
  - by injection Hrs as <-.
  - cbn [mapM] in Hrs. destruct (getrow A i) as [r|e]; [|discriminate].
    cbn [mbind result_bind] in Hrs.
    destruct (mapM (getrow A) idx) as [rs'|e]; [|discriminate].
    injection Hrs as <-. simpl. f_equal. by apply IH.
Qed.

Lemma triples_lookup (rows cols : list Z) (values : list F) (k : nat)
    (r c : Z) (v : F) :
  zip (zip rows cols) values !! k = Some (r, c, v) <->
  rows !! k = Some r /\ cols !! k = Some c /\ values !! k = Some v.
Proof. rewrite !lookup_zip_Some. naive_solver. Qed.

Lemma in_shape_valid df U V :
  wf_frame df ->
  Forall (in_shape (Z.of_nat (length U)) (Z.of_nat (length V))) (observations df) ->
  valid_indices df U V.
Proof.
  intros (Hlu & Hlm & Hlr & _) Hall. rewrite Forall_lookup in Hall.
  split; apply Forall_lookup; intros k i Hk.
  - pose proof (lookup_lt_Some _ _ _ Hk) as Hlt.
    destruct (lookup_lt_is_Some_2 (movieId df) k) as [m Hm]; [lia|].
    destruct (lookup_lt_is_Some_2 (rating df) k) as [r Hr]; [lia|].
    assert (observations df !! k = Some (i, m, r)) as Ho
      by (by apply observations_lookup).
    by destruct (Hall _ _ Ho).
  - pose proof (lookup_lt_Some _ _ _ Hk) as Hlt.
    destruct (lookup_lt_is_Some_2 (userId df) k) as [u Hu]; [lia|].
    destruct (lookup_lt_is_Some_2 (rating df) k) as [r Hr]; [lia|].
    assert (observations df !! k = Some (u, i, r)) as Ho
      by (by apply observations_lookup).
    by destruct (Hall _ _ Ho).
Qed.

Lemma df2matrix_outside df U V :
  wf_frame df -> ~ valid_indices df U V ->
  df2matrix df (Z.of_nat (length U)) (Z.of_nat (length V)) = Raise ValueError.
Proof.
  intros Hwf Hnot. unfold df2matrix, sparse_csc_matrix.
  rewrite decide_True by lia. fold (observations df).
  rewrite decide_False; [done|].
  intros Hall. by apply Hnot, in_shape_valid.
Qed.


Lemma values_at_none (triples : list (Z * Z * F)) (r c : Z) :
  (forall t, t ∈ triples -> t.1 <> (r, c)) -> values_at triples r c = [].
Proof.
  intros Hnone. unfold values_at. rewrite filter_none; [done|].
  apply Forall_forall. intros t Ht. by apply Hnone.
Qed.


(** X9.  [sparse_multiply] raises [IndexError] when some index lies
    outside [-n, n), and [ValueError] when every index lies in [-n, n) but
    one of them is negative: the predictions are computed with the index
    counted from the end, and the builder then refuses it. *)
Theorem sparse_multiply_errors df U V :
  wf_frame df ->
  (~ wrap_indices df U V -> sparse_multiply df U V = Raise IndexError) /\
  (wrap_indices df U V -> ~ valid_indices df U V ->
   sparse_multiply df U V = Raise ValueError).
Proof.
  intros Hwf. pose proof Hwf as (Hlu & Hlm & Hlr & _). split.
  - intros Hnot%not_wrap_indices. unfold sparse_multiply.
    by rewrite (predict_outside _ _ _ _ Hnot).
  - intros [Hwu Hwm] Hnot. unfold sparse_multiply, predict.
    destruct (take_rows_wrap U _ Hwu) as [pu Hpu].
    destruct (take_rows_wrap V _ Hwm) as [pm Hpm].
    rewrite Hpu, Hpm. cbn [mbind result_bind].
    assert (Hlen : length (zip_with dot pu pm) = len df).
    { rewrite length_zip_with, (take_rows_length _ _ _ Hpu),
        (take_rows_length _ _ _ Hpm). lia. }
    unfold df2matrix_column, sparse_csc_matrix.
    rewrite decide_True by lia. rewrite decide_False; [done|].
    intros Hall. apply Hnot.
    rewrite Forall_lookup in Hall.
    split; apply Forall_lookup; intros k i Hk.
    + pose proof (lookup_lt_Some _ _ _ Hk) as Hlt.
      destruct (lookup_lt_is_Some_2 (movieId df) k) as [m Hm]; [lia|].
      destruct (lookup_lt_is_Some_2 (zip_with dot pu pm) k) as [p Hp]; [lia|].
      assert (zip (zip (userId df) (movieId df)) (zip_with dot pu pm) !! k
              = Some (i, m, p)) as Ht by (by apply triples_lookup).
      by destruct (Hall _ _ Ht).
    + pose proof (lookup_lt_Some _ _ _ Hk) as Hlt.
      destruct (lookup_lt_is_Some_2 (userId df) k) as [u Hu]; [lia|].
      destruct (lookup_lt_is_Some_2 (zip_with dot pu pm) k) as [p Hp]; [lia|].
      assert (zip (zip (userId df) (movieId df)) (zip_with dot pu pm) !! k
              = Some (u, i, p)) as Ht by (by apply triples_lookup).
      by destruct (Hall _ _ Ht).
Qed.

End BuilderFacts.

(** ** Shapes through training *)

Section ShapeFacts.
Context {F : Type} `{Arith F}.

Implicit Types (U V A B : list (list F)) (df : DataFrame Z F) (σ : store F).

Lemma rect_zip_with (f : F -> F -> F) (n K : nat) A B :
  rect n K A -> rect n K B -> rect n K (zip_with (zip_with f) A B).
Proof.
  intros [HA HAr] [HB HBr]. split; [rewrite length_zip_with; lia|].
  rewrite Forall_lookup in HAr. rewrite Forall_lookup in HBr.
  apply Forall_lookup. intros i r Hi.
  apply lookup_zip_with_Some in Hi as (a & b & -> & Ha & Hb).
  rewrite length_zip_with, (HAr _ _ Ha), (HBr _ _ Hb). lia.
Qed.

Lemma rect_fmap (g : F -> F) (n K : nat) A :
  rect n K A -> rect n K ((fun r : list F => g <$> r) <$> A).
Proof.
  intros [HA HAr]. split; [by rewrite length_fmap|].
  rewrite Forall_lookup in HAr. apply Forall_lookup. intros i r Hi.
  rewrite list_lookup_fmap in Hi.
  destruct (A !! i) as [a|] eqn:Ha; [|done]. injection Hi as <-.
  by rewrite length_fmap, (HAr _ _ Ha).
Qed.

Lemma row_at_length (n K : nat) A (i : Z) :
  rect n K A -> 0 <= i < Z.of_nat n -> length (row_at A i) = K.
Proof.
  intros [HA HAr] Hi. unfold row_at.
  destruct (lookup_lt_is_Some_2 A (Z.to_nat i)) as [r Hr]; [lia|].
  rewrite Hr. simpl. rewrite Forall_lookup in HAr. by apply (HAr _ _ Hr).
Qed.

Lemma mean_of_terms_length (K : nat) (n : Z) (terms : list (list F)) :
  Forall (fun t => length t = K) terms -> length (mean_of_terms K n terms) = K.
Proof.
  intros Hall. unfold mean_of_terms. rewrite length_fmap.
  assert (Hz : length (zero_row K : list F) = K)
    by (unfold zero_row; by rewrite length_replicate).
  revert Hz. generalize (zero_row K : list F).
  induction Hall as [|t terms Ht Hall IH]; intros z Hz; [done|].
  simpl. apply IH. unfold row_add. rewrite length_zip_with. lia.
Qed.

Lemma user_terms_length df U V (nu nv K : nat) (u : Z) :
  valid_indices df U V -> rect nu K U -> rect nv K V ->
  Forall (fun t => length t = K) (user_terms U V (observations df) u).
Proof.
  intros Hv HU HV. pose proof (observations_in_shape df U V Hv) as Hall.
  destruct HV as [HnV HVr]. unfold user_terms. apply Forall_fmap.
  apply Forall_forall. intros [[u' m] r] [_ Ho]%list_elem_of_filter.
  rewrite Forall_forall in Hall. destruct (Hall _ Ho) as [_ Hm].
  unfold user_term, row_scale. simpl. rewrite length_fmap.
  apply (row_at_length nv K V m); [done|lia].
Qed.

Lemma movie_terms_length df U V (nu nv K : nat) (m : Z) :
  valid_indices df U V -> rect nu K U -> rect nv K V ->
  Forall (fun t => length t = K) (movie_terms U V (observations df) m).
Proof.
  intros Hv HU HV. pose proof (observations_in_shape df U V Hv) as Hall.
  destruct HU as [HnU HUr]. unfold movie_terms. apply Forall_fmap.
  apply Forall_forall. intros [[u m'] r] [_ Ho]%list_elem_of_filter.
  rewrite Forall_forall in Hall. destruct (Hall _ Ho) as [Hu _].
  unfold movie_term, row_scale. simpl. rewrite length_fmap.
  apply (row_at_length nu K U u); [done|lia].
Qed.

(** The gradient has the shapes of the factor matrices. *)
Lemma gradient_rect df Y U V (nu nv K : nat) :
  wf_frame df -> default_index df -> valid_indices df U V ->
  rect nu K U -> rect nv K V ->
  exists grad_user grad_movie,
    gradient df Y U V = Ok (grad_user, grad_movie) /\
    rect nu K grad_user /\ rect nv K grad_movie.
Proof.
  intros Hwf Hidx Hv HU HV.
  destruct (gradient_rows df Y U V nu nv K Hwf Hidx Hv HU HV)
    as (gu & gm & Hg & Hlu & Hlm & Hu & Hm).
  exists gu, gm. split; [done|]. split; (split; [done|]);
    apply Forall_lookup; intros i r Hi.
  - rewrite Hu in Hi by (apply lookup_lt_Some in Hi; lia).
    injection Hi as <-. apply mean_of_terms_length.
    by apply (user_terms_length df U V nu nv K).
  - rewrite Hm in Hi by (apply lookup_lt_Some in Hi; lia).
    injection Hi as <-. apply mean_of_terms_length.
    by apply (movie_terms_length df U V nu nv K).
Qed.

Lemma transition_rect df Y (lr : F) (nu nv K : nat) (s : opt_state) :
  wf_frame df -> default_index df ->
  Forall (fun i => 0 <= i < Z.of_nat nu) (userId df) ->
  Forall (fun i => 0 <= i < Z.of_nat nv) (movieId df) ->
  rect_state nu nv K s ->
  exists s', transition df Y lr s = Ok s' /\ rect_state nu nv K s'.
Proof.
  intros Hwf Hidx Hvu Hvm (HU & HV & HvU & HvV).
  assert (Hv : valid_indices df (st_user s) (st_movie s)).
  { pose proof HU as [HnU _]. pose proof HV as [HnV _].
    split; [by rewrite HnU|by rewrite HnV]. }
  destruct (gradient_rect df Y _ _ nu nv K Hwf Hidx Hv HU HV)
    as (gu & gm & Hg & Hgu & Hgm).
  unfold transition. rewrite Hg. cbn [mbind result_bind].
  eexists. split; [reflexivity|].
  unfold rect_state. cbn [st_user st_movie st_vel_user st_vel_movie].
  assert (rect nu K (mat_add (mat_scale (of_lit (9 # 10)) (st_vel_user s))
                       (mat_scale (fsub (of_int 1) (of_lit (9 # 10))) gu))) as Hvu'
    by (apply rect_zip_with; by apply rect_fmap).
  assert (rect nv K (mat_add (mat_scale (of_lit (9 # 10)) (st_vel_movie s))
                       (mat_scale (fsub (of_int 1) (of_lit (9 # 10))) gm))) as Hvm'
    by (apply rect_zip_with; by apply rect_fmap).
  split; [|split; [|split]]; [| |exact Hvu'|exact Hvm'];
    (apply rect_zip_with; [done|by apply rect_fmap]).
Qed.

Lemma iterate_rect df Y (lr : F) (nu nv K : nat) (N : nat) :
  wf_frame df -> default_index df ->
  Forall (fun i => 0 <= i < Z.of_nat nu) (userId df) ->
  Forall (fun i => 0 <= i < Z.of_nat nv) (movieId df) ->
  forall s, rect_state nu nv K s ->
  exists s', iterate N (transition df Y lr) s = Ok s' /\ rect_state nu nv K s'.
Proof.
  intros Hwf Hidx Hvu Hvm. induction N as [|N IH]; intros s Hs.
  - by exists s.
  - destruct (transition_rect df Y lr nu nv K s Hwf Hidx Hvu Hvm Hs)
      as (s1 & Hs1 & Hr1).
    cbn [iterate]. rewrite Hs1. cbn [mbind result_bind]. by apply IH.
Qed.

(** X10.  Training keeps the shapes: on a valid frame and two distinct
    arrays of [nu] and [nv] rows and [K] columns, [gradient_descent]
    returns arrays of the same shapes, for which the indices of the frame
    are still valid. *)
Theorem gradient_descent_keeps_shapes df (ru rm : nat) (N : nat) (lr : F) σ
    (nu nv K : nat) :
  wf_frame df -> default_index df -> valid_indices df (σ ru) (σ rm) ->
  rect nu K (σ ru) -> rect nv K (σ rm) -> ru <> rm ->
  exists σ',
    gradient_descent df ru rm N lr σ = Ok ((ru, rm), σ') /\
    rect nu K (σ' ru) /\ rect nv K (σ' rm) /\
    valid_indices df (σ' ru) (σ' rm).
Proof.
  intros Hwf Hidx Hv HU HV Hne.
  pose proof (gradient_descent_simulates df ru rm N lr σ Hne) as Hsim.
  rewrite (df2matrix_in_shape df _ _ (Nat2Z.is_nonneg _) (Nat2Z.is_nonneg _)
             (observations_in_shape df _ _ Hv)) in Hsim.
  destruct Hv as [Hvu Hvm]. pose proof HU as [HnU _]. pose proof HV as [HnV _].
  rewrite HnU in Hvu. rewrite HnV in Hvm.
  destruct (iterate_rect df
              (mkCsc (Z.of_nat (length (σ ru)), Z.of_nat (length (σ rm)))
                 (foldl coo_add ∅ (observations df)))
              lr nu nv K N Hwf Hidx Hvu Hvm (initial_state (σ ru) (σ rm)))
    as (s & Hs & HsU & HsV & _).
  { split; [exact HU|]. split; [exact HV|].
    split; [apply (rect_fmap (fun _ => fzero) nu K (σ ru) HU)
           |apply (rect_fmap (fun _ => fzero) nv K (σ rm) HV)]. }
  rewrite Hs in Hsim. destruct Hsim as (σ' & Hgd & Hu & Hm).
  exists σ'. rewrite Hu, Hm. split; [done|]. split; [done|]. split; [done|].
  pose proof HsU as [HnU' _]. pose proof HsV as [HnV' _].
  split; [by rewrite HnU'|by rewrite HnV'].
Qed.

End ShapeFacts.

(** ** The cost *)

Section CostFacts.
Context {F : Type} `{Arith F}.

Implicit Types (U V : list (list F)) (df : DataFrame Z F).

(** The differences [rating - prediction], observation by observation. *)
Lemma diff_eq df U V :
  zip_with fsub (rating df)
    (zip_with dot (row_at U <$> userId df) (row_at V <$> movieId df))
  = diff_of U V <$> observations df.
Proof.
  apply list_eq. intros k. unfold observations.
  rewrite list_lookup_fmap, !lookup_zip_with, !list_lookup_fmap.
  destruct (rating df !! k) as [r|], (userId df !! k) as [u|],
    (movieId df !! k) as [m|]; done.
Qed.

Lemma cost_valid df U V :
  valid_indices df U V ->
  cost df U V = Ok (np_mean (squared_errors df U V)).
Proof.
  intros [Hu Hm]. unfold cost. rewrite (predict_nonneg _ _ _ _ Hu Hm).
  cbn [mbind result_bind]. rewrite diff_eq. unfold squared_errors.
  by rewrite <- list_fmap_compose.
Qed.

End CostFacts.

(** ** Exact arithmetic *)

Section Exact.
Local Open Scope Qc_scope.

Implicit Types (U V : list (list Qc)) (df : DataFrame Z Qc).

Lemma fzero_Qc : (fzero : Qc) = 0.
Proof. reflexivity. Qed.

Lemma total_nil : total ([] : list Qc) = 0.
Proof. reflexivity. Qed.

Lemma total_cons (x : Qc) (l : list Qc) : total (x :: l) = x + total l.
Proof. reflexivity. Qed.

Lemma foldl_plus (x : Qc) (l : list Qc) : foldl Qcplus x l = x + total l.
Proof.
  revert x. induction l as [|y l IH]; intros x.
  - rewrite total_nil. cbn [foldl]. ring.
  - rewrite total_cons. cbn [foldl]. rewrite IH. ring.
Qed.

Lemma np_sum_total (l : list Qc) : np_sum l = total l.
Proof.
  destruct l as [|x l]; [done|].
  change (np_sum (x :: l)) with (foldl Qcplus x l). by rewrite foldl_plus.
Qed.

Lemma square_nonneg (x : Qc) : 0 <= x * x.
Proof.
  destruct (Qclt_le_dec x 0) as [Hneg|Hpos].
  - replace (x * x) with ((- x) * (- x)) by ring.
    assert (0 <= - x) as Hx.
    { apply Qclt_le_weak in Hneg. apply Qcopp_le_compat in Hneg.
      by replace (- 0) with 0 in Hneg by ring. }
    replace 0 with (0 * - x) by ring. by apply Qcmult_le_compat_r.
  - replace 0 with (0 * x) by ring. by apply Qcmult_le_compat_r.
Qed.

Lemma total_nonneg (l : list Qc) : Forall (fun x => 0 <= x) l -> 0 <= total l.
Proof.
  induction 1 as [|x l Hx Hl IH]; [apply Qcle_refl|].
  rewrite total_cons.
  replace 0 with (0 + 0) by ring. by apply Qcplus_le_compat.
Qed.

Lemma total_zero (l : list Qc) :
  Forall (fun x => 0 <= x) l -> total l = 0 -> Forall (fun x => x = 0) l.
Proof.
  induction 1 as [|x l Hx Hl IH]; intros Hsum; [constructor|].
  rewrite total_cons in Hsum.
  pose proof (total_nonneg l Hl) as Ht.
  assert (x = 0) as ->.
  { apply Qcle_antisym; [|done].
    rewrite <- Hsum. replace x with (x + 0) at 1 by ring.
    apply Qcplus_le_compat; [apply Qcle_refl|done]. }
  constructor; [done|]. apply IH. rewrite <- Hsum. ring.
Qed.

Lemma total_zeros (l : list Qc) : Forall (fun x => x = 0) l -> total l = 0.
Proof.
  induction 1 as [|x l -> Hl IH]; [done|].
  rewrite total_cons, IH. ring.
Qed.

Lemma of_int_nonneg (n : nat) : 0 <= of_int (Z.of_nat n).
Proof.
  unfold Qcle. cbn [of_int Qc_arith this Q2Qc]. rewrite !Qred_correct.
  unfold Qle. simpl. lia.
Qed.

Lemma of_int_pos (n : nat) : (0 < n)%nat -> of_int (Z.of_nat n) <> 0.
Proof.
  intros Hn Heq. apply (f_equal this) in Heq.
  cbn [of_int Qc_arith this Q2Qc] in Heq.
  assert (Qred (inject_Z (Z.of_nat n)) == 0)%Q as Hq by (by rewrite Heq).
  rewrite Qred_correct in Hq. unfold Qeq in Hq. simpl in Hq. lia.
Qed.

Lemma div_nonneg (a b : Qc) : 0 <= a -> 0 <= b -> 0 <= a / b.
Proof.
  intros Ha Hb. unfold Qcdiv.
  assert (0 <= / b) as Hinv.
  { unfold Qcle, Qcinv in *. cbn [this Q2Qc] in *. rewrite !Qred_correct in *.
    by apply Qinv_le_0_compat. }
  replace 0 with (0 * / b) by ring. by apply Qcmult_le_compat_r.
Qed.

Lemma squares_nonneg {A} (f : A -> Qc) (l : list A) :
  Forall (fun x => 0 <= x) ((fun a => f a * f a) <$> l).
Proof. apply Forall_fmap, Forall_forall. intros a _. apply square_nonneg. Qed.


End Exact.

Lemma zip_with_fmap_same {A B C D} (f : B -> C -> D) (g : A -> B) (h : A -> C)
    (l : list A) :
  zip_with f (g <$> l) (h <$> l) = (fun x => f (g x) (h x)) <$> l.
Proof. induction l as [|x l IH]; [done|]. simpl. f_equal. apply IH. Qed.

Lemma zip_with_fmap_r {A C} (f : A -> C -> A) (h : A -> C) (l : list A) :
  zip_with f l (h <$> l) = (fun x => f x (h x)) <$> l.
Proof. induction l as [|x l IH]; [done|]. simpl. f_equal. apply IH. Qed.

Lemma const_fmap_replicate {A B} (c : B) (l : list A) :
  (fun _ => c) <$> l = replicate (length l) c.
Proof. induction l as [|x l IH]; [done|]. simpl. f_equal. apply IH. Qed.

Lemma fmap_id_ext {A} (f : A -> A) (l : list A) :
  (forall x, f x = x) -> f <$> l = l.
Proof.
  intros Hf. induction l as [|x l IH]; [done|]. simpl. rewrite Hf. f_equal. apply IH.
Qed.

Section FixedPoint.
Local Open Scope Qc_scope.

Implicit Types (U V : list (list Qc)) (df : DataFrame Z Qc) (σ : store Qc).

(** Entry-wise equations of exact arithmetic. *)
Ltac qc_ring :=
  cbn [compose fmul fadd fsub fdiv Qc_arith]; rewrite ?fzero_Qc;
  unfold Qcdiv; ring.

Lemma mat_scale_zeros (c : Qc) U : mat_scale c (zeros_like U) = zeros_like U.
Proof.
  unfold mat_scale, zeros_like. rewrite <- list_fmap_compose.
  apply list_fmap_ext. intros i r _. cbn [compose]. rewrite <- list_fmap_compose.
  apply list_fmap_ext. intros j x _. qc_ring.
Qed.

Lemma mat_add_zeros U : mat_add (zeros_like U) (zeros_like U) = zeros_like U.
Proof.
  unfold mat_add, zeros_like. rewrite zip_with_fmap_same.
  apply list_fmap_ext. intros i r _. rewrite zip_with_fmap_same.
  apply list_fmap_ext. intros j x _. qc_ring.
Qed.

Lemma mat_sub_zeros U : mat_sub U (zeros_like U) = U.
Proof.
  unfold mat_sub, zeros_like. rewrite zip_with_fmap_r.
  apply fmap_id_ext. intros r. rewrite zip_with_fmap_r.
  apply fmap_id_ext. intros x. qc_ring.
Qed.

Lemma row_add_zero_rows (K : nat) :
  row_add (zero_row K) (zero_row K) = (zero_row K : list Qc).
Proof.
  unfold row_add, zero_row. induction K as [|K IH]; [done|].
  cbn [replicate zip_with]. rewrite IH. f_equal; try qc_ring.
Qed.

Lemma mean_of_zero_rows (K : nat) (n : Z) (terms : list (list Qc)) :
  Forall (fun t => t = zero_row K) terms ->
  mean_of_terms K n terms = zero_row K.
Proof.
  intros Hall. unfold mean_of_terms.
  assert (foldl row_add (zero_row K) terms = zero_row K) as ->.
  { induction Hall as [|t terms -> Hall IH]; [done|].
    simpl. by rewrite row_add_zero_rows. }
  unfold zero_row. rewrite fmap_replicate. f_equal. qc_ring.
Qed.

Lemma row_scale_zero (r : list Qc) (c : Qc) :
  c = 0 -> row_scale c r = zero_row (length r).
Proof.
  intros ->. unfold row_scale, zero_row. rewrite <- const_fmap_replicate.
  apply list_fmap_ext. intros i x _. qc_ring.
Qed.

Lemma zeros_like_lookup (n K : nat) U (i : nat) :
  rect n K U -> (i < n)%nat -> zeros_like U !! i = Some (zero_row K).
Proof.
  intros [Hn HK] Hi. unfold zeros_like. rewrite list_lookup_fmap.
  destruct (lookup_lt_is_Some_2 U i) as [r Hr]; [lia|]. rewrite Hr. simpl.
  rewrite Forall_lookup in HK. rewrite <- (HK _ _ Hr).
  by rewrite const_fmap_replicate.
Qed.

(** At a perfect fit every term of the gradient is a zero row. *)
Lemma gradient_at_fit df Y U V (nu nv K : nat) :
  wf_frame df -> default_index df -> valid_indices df U V ->
  rect nu K U -> rect nv K V ->
  (forall u m r, (u, m, r) ∈ observations df ->
                 dot (row_at U u) (row_at V m) = r) ->
  gradient df Y U V = Ok (zeros_like U, zeros_like V).
Proof.
  intros Hwf Hidx Hv HU HV Hfit.
  destruct (gradient_rows df Y U V nu nv K Hwf Hidx Hv HU HV)
    as (gu & gm & Hg & Hlu & Hlm & Hu & Hm).
  pose proof (observations_in_shape df U V Hv) as Hshape.
  rewrite Forall_forall in Hshape.
  pose proof HU as [HnU _]. pose proof HV as [HnV _].
  assert (Hdiff : forall o, o ∈ observations df ->
            fmul (of_int (-2)) (diff_of U V o) = 0).
  { intros [[u m] r] Ho. simpl. rewrite (Hfit u m r Ho).
    cbn [fmul fsub Qc_arith]. ring. }
  rewrite Hg. do 2 f_equal; apply list_eq; intros i.
  - destruct (decide (i < nu)%nat) as [Hi|Hi].
    + rewrite (Hu i Hi), (zeros_like_lookup nu K U i HU Hi). f_equal.
      apply mean_of_zero_rows. unfold user_terms.
      apply Forall_fmap, Forall_forall. intros o [_ Ho]%list_elem_of_filter.
      unfold user_term. simpl. rewrite row_scale_zero by (by apply Hdiff).
      f_equal. destruct o as [[u m] r]. destruct (Hshape _ Ho) as [_ Hm'].
      apply (row_at_length nv K V m HV). simpl. lia.
    + rewrite !(proj2 (lookup_ge_None _ _)); [done| |];
        rewrite ?zeros_like_length; lia.
  - destruct (decide (i < nv)%nat) as [Hi|Hi].
    + rewrite (Hm i Hi), (zeros_like_lookup nv K V i HV Hi). f_equal.
      apply mean_of_zero_rows. unfold movie_terms.
      apply Forall_fmap, Forall_forall. intros o [_ Ho]%list_elem_of_filter.
      unfold movie_term. simpl. rewrite row_scale_zero by (by apply Hdiff).
      f_equal. destruct o as [[u m] r]. destruct (Hshape _ Ho) as [Hu' _].
      apply (row_at_length nu K U u HU). simpl. lia.
    + rewrite !(proj2 (lookup_ge_None _ _)); [done| |];
        rewrite ?zeros_like_length; lia.
Qed.


End FixedPoint.

(** ** The finite difference and the gradient *)

Section FiniteDifference.
Local Open Scope Qc_scope.

Implicit Types (U V : list (list Qc)) (df : DataFrame Z Qc)
  (o : Z * Z * Qc).

Lemma total_split {A} (P : A -> Prop) `{forall x, Decision (P x)}
    (f f' g : A -> Qc) (l : list A) :
  (forall a, a ∈ l -> f' a = f a + (if decide (P a) then g a else 0)) ->
  total (f' <$> l) = total (f <$> l) + total (g <$> filter P l).
Proof.
  induction l as [|a l IH]; intros Hf.
  - cbn [fmap list_fmap]. rewrite filter_nil. cbn [fmap list_fmap].
    rewrite !total_nil. ring.
  - cbn [fmap list_fmap]. rewrite filter_cons, !total_cons.
    fold (fmap (M := list) f' l). fold (fmap (M := list) f l).
    rewrite IH by (intros b Hb; apply Hf; by apply list_elem_of_further).
    rewrite (Hf a (list_elem_of_here _ _)).
    destruct (decide (P a)).
    + cbn [fmap list_fmap]. rewrite total_cons.
      fold (fmap (M := list) g (filter P l)). ring.
    + ring.
Qed.

Lemma total_linear {A} (a b : Qc) (f g : A -> Qc) (l : list A) :
  total ((fun x => a * f x + b * g x) <$> l)
  = a * total (f <$> l) + b * total (g <$> l).
Proof.
  induction l as [|x l IH].
  - cbn [fmap list_fmap]. rewrite !total_nil. ring.
  - cbn [fmap list_fmap]. rewrite !total_cons.
    fold (fmap (M := list) (fun x => a * f x + b * g x) l).
    fold (fmap (M := list) f l). fold (fmap (M := list) g l).
    rewrite IH. ring.
Qed.

Lemma of_int_minus_two : (of_int (-2) : Qc) = - (1 + 1).
Proof. apply Qc_is_canon. reflexivity. Qed.

Lemma fd_step_pos : 0 < (fd_step : Qc).
Proof. unfold Qclt. cbn. unfold Qlt. simpl. lia. Qed.

Lemma fd_step_nonzero : (fd_step : Qc) <> 0.
Proof. intros Heq. pose proof fd_step_pos as Hpos. rewrite Heq in Hpos.
  by apply (Qclt_not_eq 0 0). Qed.

(** The two costs of [finite_difference] when the perturbed matrices
    change the difference of the observations in [P] by [e * w]. *)
Lemma difference_quotient df U V U' V' (P : Z * Z * Qc -> Prop)
    `{forall o, Decision (P o)} (w : Z * Z * Qc -> Qc) (e : Qc) :
  e <> 0 ->
  valid_indices df U V -> valid_indices df U' V' ->
  (forall o, o ∈ observations df ->
     diff_of U' V' o = diff_of U V o - (if decide (P o) then e * w o else 0)) ->
  exists c1 c2,
    cost df U V = Ok c1 /\ cost df U' V' = Ok c2 /\
    (c2 - c1) / e =
      total ((fun o => of_int (-2) * diff_of U V o * w o) <$> filter P (observations df))
        / of_int (Z.of_nat (length (observations df)))
      + e * (total ((fun o => w o * w o) <$> filter P (observations df))
               / of_int (Z.of_nat (length (observations df)))).
Proof.
  intros He Hv Hv' Hdiff. eexists _, _.
  split; [by apply cost_valid|]. split; [by apply cost_valid|].
  unfold np_mean, squared_errors. rewrite !np_sum_total, !length_fmap.
  rewrite (total_split P (fun o => fmul (diff_of U V o) (diff_of U V o))
             (fun o => fmul (diff_of U' V' o) (diff_of U' V' o))
             (fun o => e * (of_int (-2) * diff_of U V o * w o)
                       + (e * e) * (w o * w o))).
  - rewrite total_linear.
    set (S := total (_ <$> observations df)).
    set (G := total ((fun o => of_int (-2) * diff_of U V o * w o) <$> _)).
    set (W := total ((fun o => w o * w o) <$> _)).
    set (n := of_int _).
    cbn [fdiv fsub Qc_arith]. unfold Qcdiv.
    transitivity ((e * / e) * (G * / n + e * (W * / n))); [ring|].
    rewrite Qcmult_inv_r by done. ring.
  - intros o Ho. rewrite (Hdiff o Ho). cbn [fmul Qc_arith].
    rewrite of_int_minus_two. destruct (decide (P o)); ring.
Qed.

Lemma row_add_zero_r (r : list Qc) (K : nat) :
  length r = K -> zip_with Qcplus r (replicate K 0) = r.
Proof.
  revert K. induction r as [|a r IH]; intros K <-; [done|].
  cbn [length replicate zip_with]. rewrite IH by done. f_equal. ring.
Qed.

Lemma dot_total (r v : list Qc) : dot r v = total (zip_with Qcmult r v).
Proof. unfold dot. by rewrite np_sum_total. Qed.

(** The dot product after one entry of the left row was increased. *)
Lemma dot_bump (r v : list Qc) (K k : nat) (e : Qc) :
  length r = K -> length v = K -> (k < K)%nat ->
  dot (zip_with Qcplus r (<[k := e]> (replicate K 0))) v
  = dot r v + e * default 0 (v !! k).
Proof.
  rewrite !dot_total. revert v K k.
  induction r as [|a r IH]; intros v K k <- Hv Hk; [simpl in Hk; lia|].
  destruct v as [|b v]; [discriminate|]. injection Hv as Hv.
  destruct k as [|k].
  - assert (zip_with Qcplus (a :: r) (<[0%nat := e]> (replicate (length (a :: r)) 0))
            = (a + e) :: zip_with Qcplus r (replicate (length r) 0)) as ->
      by reflexivity.
    assert ((b :: v) !! 0%nat = Some b) as -> by reflexivity.
    rewrite (row_add_zero_r r (length r) eq_refl). cbn [zip_with].
    rewrite !total_cons. cbn [default from_option id]. ring.
  - assert (zip_with Qcplus (a :: r) (<[S k := e]> (replicate (length (a :: r)) 0))
            = (a + 0) :: zip_with Qcplus r (<[k := e]> (replicate (length r) 0))) as ->
      by reflexivity.
    assert ((b :: v) !! S k = v !! k) as -> by reflexivity.
    cbn [zip_with]. rewrite !total_cons.
    rewrite (IH v (length r) k eq_refl Hv) by (simpl in Hk; lia). ring.
Qed.

Lemma dot_comm (r v : list Qc) : dot r v = dot v r.
Proof.
  rewrite !dot_total. revert v. induction r as [|a r IH]; intros [|b v]; try done.
  cbn [zip_with]. rewrite !total_cons, IH. ring.
Qed.

Lemma mat_add_zeros_r V : mat_add V (zeros_like V) = V.
Proof.
  unfold mat_add, zeros_like. rewrite zip_with_fmap_r.
  apply fmap_id_ext. intros r. rewrite zip_with_fmap_r.
  apply fmap_id_ext. intros x. cbn [fadd Qc_arith]. rewrite fzero_Qc. ring.
Qed.

(** [x[u][k] = e] on a matrix of zeros. *)
Lemma assign_entry_zeros U (n K : nat) (u k : Z) (e : Qc) :
  rect n K U -> (0 <= u < Z.of_nat n)%Z -> (0 <= k < Z.of_nat K)%Z ->
  assign_entry (zeros_like U) (Some u) (Some k) e
  = Ok (<[Z.to_nat u := <[Z.to_nat k := e]> (replicate K 0)]> (zeros_like U)).
Proof.
  intros HU Hu Hk. pose proof HU as [HnU _]. unfold assign_entry.
  rewrite getrow_nonneg by (rewrite zeros_like_length; lia).
  cbn [mbind result_bind].
  rewrite (zeros_like_row n K U u HU Hu). unfold zero_row.
  rewrite length_replicate, np_index_nonneg by lia. cbn [mbind result_bind].
  unfold setrow. rewrite np_index_nonneg by (rewrite zeros_like_length; lia).
  reflexivity.
Qed.

(** The rows of a matrix to which the perturbation was added. *)
Lemma row_at_perturbed U (n K : nat) (u k i : Z) (e : Qc) :
  rect n K U -> (0 <= u < Z.of_nat n)%Z -> (0 <= i < Z.of_nat n)%Z ->
  row_at (mat_add U (<[Z.to_nat u := <[Z.to_nat k := e]> (replicate K 0)]>
                       (zeros_like U))) i
  = if decide (i = u)
    then zip_with Qcplus (row_at U i) (<[Z.to_nat k := e]> (replicate K 0))
    else row_at U i.
Proof.
  intros HU Hu Hi. pose proof HU as [HnU HUr].
  destruct (lookup_lt_is_Some_2 U (Z.to_nat i)) as [r Hr]; [lia|].
  rewrite Forall_lookup in HUr. pose proof (HUr _ _ Hr) as Hlen.
  unfold row_at at 1. unfold mat_add. rewrite lookup_zip_with, Hr.
  cbn [mbind option_bind].
  case_decide as Hiu.
  - subst i. rewrite list_lookup_insert_eq by (rewrite zeros_like_length; lia).
    cbn [mbind option_bind default from_option id].
    unfold row_at. by rewrite Hr.
  - rewrite list_lookup_insert_ne by lia.
    rewrite (zeros_like_lookup n K U (Z.to_nat i) HU) by lia.
    cbn [mbind option_bind default from_option id]. unfold zero_row.
    rewrite fzero_Qc. cbn [fadd Qc_arith].
    rewrite row_add_zero_r by done. unfold row_at. by rewrite Hr.
Qed.

Lemma perturbed_rect U (n K : nat) (X : list (list Qc)) :
  rect n K U -> rect n K X -> rect n K (mat_add U X).
Proof. intros HU HX. by apply rect_zip_with. Qed.

End FiniteDifference.

Section GradientEntries.
Local Open Scope Qc_scope.

Implicit Types (U V : list (list Qc)) (df : DataFrame Z Qc)
  (o : Z * Z * Qc).

Lemma foldl_row_add_lookup (terms : list (list Qc)) (K k : nat) (z : list Qc) :
  Forall (fun t => length t = K) terms -> length z = K -> (k < K)%nat ->
  default 0 (foldl row_add z terms !! k)
  = default 0 (z !! k) + total ((fun t => default 0 (t !! k)) <$> terms).
Proof.
  intros Hall. revert z. induction Hall as [|t terms Ht Hall IH]; intros z Hz Hk.
  - cbn [foldl fmap list_fmap]. rewrite total_nil. ring.
  - cbn [foldl fmap list_fmap]. rewrite total_cons.
    fold (fmap (M := list) (fun t => default 0 (t !! k)) terms).
    rewrite IH by (unfold row_add; rewrite ?length_zip_with; lia).
    unfold row_add. rewrite lookup_zip_with.
    destruct (lookup_lt_is_Some_2 z k) as [a ->]; [lia|].
    destruct (lookup_lt_is_Some_2 t k) as [b ->]; [lia|].
    cbn [mbind option_bind default from_option id fadd Qc_arith]. ring.
Qed.

(** An entry of a row of the gradient: the sum of the entries of its
    terms, divided by the number of observations. *)
Lemma mean_of_terms_entry (K k : nat) (n : Z) (terms : list (list Qc)) :
  Forall (fun t => length t = K) terms -> (k < K)%nat ->
  default 0 (mean_of_terms K n terms !! k)
  = total ((fun t => default 0 (t !! k)) <$> terms) / of_int n.
Proof.
  intros Hall Hk. unfold mean_of_terms. rewrite list_lookup_fmap.
  pose proof (foldl_row_add_lookup terms K k (zero_row K) Hall) as Hsum.
  unfold zero_row in *. rewrite length_replicate in Hsum.
  specialize (Hsum eq_refl Hk). rewrite lookup_replicate_2 in Hsum by done.
  assert (is_Some (foldl row_add (replicate K fzero) terms !! k)) as [x Hx].
  { apply lookup_lt_is_Some_2.
    assert (forall z : list Qc, length z = K ->
              length (foldl row_add z terms) = K) as Hlen.
    { clear -Hall. induction Hall as [|t terms Ht Hall IH]; intros z Hz; [done|].
      cbn [foldl]. apply IH. unfold row_add. rewrite length_zip_with. lia. }
    rewrite Hlen by apply length_replicate. done. }
  rewrite Hx in *. cbn [fmap option_fmap option_map default from_option id] in *.
  rewrite Hsum, fzero_Qc. cbn [fdiv Qc_arith]. unfold Qcdiv. ring.
Qed.

Lemma scaled_row_entry (c : Qc) (A : list (list Qc)) (n K : nat) (i k : Z) :
  rect n K A -> (0 <= i < Z.of_nat n)%Z -> (0 <= k < Z.of_nat K)%Z ->
  default 0 (row_scale c (row_at A i) !! Z.to_nat k) = c * entry A i k.
Proof.
  intros HA Hi Hk. unfold row_scale, entry. rewrite list_lookup_fmap.
  destruct (lookup_lt_is_Some_2 (row_at A i) (Z.to_nat k)) as [x ->];
    [rewrite (row_at_length n K A i HA Hi); lia|].
  reflexivity.
Qed.

Lemma gradient_user_entry df Y U V (nu nv K : nat) (u k : Z) :
  wf_frame df -> default_index df -> valid_indices df U V ->
  rect nu K U -> rect nv K V ->
  (0 <= u < Z.of_nat nu)%Z -> (0 <= k < Z.of_nat K)%Z ->
  exists gu gm,
    gradient df Y U V = Ok (gu, gm) /\
    entry gu u k =
      total ((fun o => of_int (-2) * diff_of U V o * entry V o.1.2 k)
               <$> filter (fun o => o.1.1 = u) (observations df))
        / of_int (Z.of_nat (len df)).
Proof.
  intros Hwf Hidx Hv HU HV Hu Hk.
  destruct (gradient_rows df Y U V nu nv K Hwf Hidx Hv HU HV)
    as (gu & gm & Hg & _ & _ & Hrow & _).
  exists gu, gm. split; [done|].
  specialize (Hrow (Z.to_nat u) ltac:(lia)). rewrite Z2Nat.id in Hrow by lia.
  unfold entry at 1. unfold row_at. rewrite Hrow.
  cbn [default from_option id].
  rewrite (mean_of_terms_entry K (Z.to_nat k));
    [|by apply (user_terms_length df U V nu nv K)|lia].
  f_equal. f_equal. unfold user_terms. rewrite <- list_fmap_compose.
  apply list_fmap_ext. intros i [[u' m] r] Ho. cbn [compose].
  apply list_elem_of_lookup_2, list_elem_of_filter in Ho as [_ Ho].
  pose proof (observations_in_shape df U V Hv) as Hshape.
  rewrite Forall_forall in Hshape. destruct (Hshape _ Ho) as [_ Hm].
  pose proof HV as [HnV _]. unfold user_term. cbn [fst snd].
  rewrite (scaled_row_entry _ V nv K m k HV) by lia. reflexivity.
Qed.

Lemma gradient_movie_entry df Y U V (nu nv K : nat) (m k : Z) :
  wf_frame df -> default_index df -> valid_indices df U V ->
  rect nu K U -> rect nv K V ->
  (0 <= m < Z.of_nat nv)%Z -> (0 <= k < Z.of_nat K)%Z ->
  exists gu gm,
    gradient df Y U V = Ok (gu, gm) /\
    entry gm m k =
      total ((fun o => of_int (-2) * diff_of U V o * entry U o.1.1 k)
               <$> filter (fun o => o.1.2 = m) (observations df))
        / of_int (Z.of_nat (len df)).
Proof.
  intros Hwf Hidx Hv HU HV Hm Hk.
  destruct (gradient_rows df Y U V nu nv K Hwf Hidx Hv HU HV)
    as (gu & gm & Hg & _ & _ & _ & Hrow).
  exists gu, gm. split; [done|].
  specialize (Hrow (Z.to_nat m) ltac:(lia)). rewrite Z2Nat.id in Hrow by lia.
  unfold entry at 1. unfold row_at. rewrite Hrow.
  cbn [default from_option id].
  rewrite (mean_of_terms_entry K (Z.to_nat k));
    [|by apply (movie_terms_length df U V nu nv K)|lia].
  f_equal. f_equal. unfold movie_terms. rewrite <- list_fmap_compose.
  apply list_fmap_ext. intros i [[u m'] r] Ho. cbn [compose].
  apply list_elem_of_lookup_2, list_elem_of_filter in Ho as [_ Ho].
  pose proof (observations_in_shape df U V Hv) as Hshape.
  rewrite Forall_forall in Hshape. destruct (Hshape _ Ho) as [Hu' _].
  pose proof HU as [HnU _]. unfold movie_term. cbn [fst snd].
  rewrite (scaled_row_entry _ U nu K u k HU) by lia. reflexivity.
Qed.

End GradientEntries.

Section FiniteDifferenceClaims.
Local Open Scope Qc_scope.

Implicit Types (U V : list (list Qc)) (df : DataFrame Z Qc)
  (o : Z * Z * Qc).

Lemma perturbed_length U (u : nat) (r : list Qc) :
  length (mat_add U (<[u := r]> (zeros_like U))) = length U.
Proof.
  unfold mat_add. rewrite length_zip_with, length_insert, zeros_like_length. lia.
Qed.

Lemma excess_nonneg {A} (w : A -> Qc) (l : list A) (n : nat) (g : Qc) :
  g <= g + fd_step * (total ((fun a => w a * w a) <$> l) / of_int (Z.of_nat n)).
Proof.
  rewrite <- (Qcplus_0_r g) at 1. apply Qcplus_le_compat; [apply Qcle_refl|].
  rewrite <- (Qcmult_0_l (total ((fun a => w a * w a) <$> l) / of_int (Z.of_nat n))).
  apply Qcmult_le_compat_r; [apply Qclt_le_weak, fd_step_pos|].
  apply div_nonneg; [|apply of_int_nonneg].
  apply total_nonneg, squares_nonneg.
Qed.



End FiniteDifferenceClaims.

(** ** From raw identifiers to training *)

Section Pipeline.
Context {Id : Type} `{Countable Id} {F : Type} `{Arith F}.

Lemma own_codes_in_range (col : list Id) :
  Forall (fun c => 0 <= c < Z.of_nat (size (list_to_set col : gset Id)))
         (apply_encoding (dict_comp ∅ (enumerate (unique col))) col).
Proof.
  apply Forall_lookup. intros i c Hc. rewrite apply_encoding_lookup in Hc.
  destruct (col !! i) as [x|] eqn:Hx; [|done]. simpl in Hc.
  destruct (code_known col x) as (j & Hj & Hrange);
    [by eapply list_elem_of_lookup_2|].
  rewrite Hj in Hc. simpl in Hc. by injection Hc as <-.
Qed.


End Pipeline.

(** ** The order of the observations *)

Lemma foldl_Permutation {A B} (f : B -> A -> B) (l l' : list A) :
  (forall b x y, f (f b x) y = f (f b y) x) ->
  l ≡ₚ l' -> forall b, foldl f b l = foldl f b l'.
Proof.
  intros Hswap. induction 1 as [|x l l' _ IH|x y l|l1 l2 l3 _ IH1 _ IH2]; intros b.
  - done.
  - simpl. apply IH.
  - simpl. by rewrite Hswap.
  - by rewrite IH1, IH2.
Qed.

Section Order.
Local Open Scope Qc_scope.

Implicit Types (U V : list (list Qc)) (df : DataFrame Z Qc).

Lemma total_Permutation (l l' : list Qc) : l ≡ₚ l' -> total l = total l'.
Proof.
  induction 1 as [|x l l' _ IH|x y l|l1 l2 l3 _ IH1 _ IH2].
  - done.
  - by rewrite !total_cons, IH.
  - rewrite !total_cons. ring.
  - by rewrite IH1, IH2.
Qed.

Lemma row_add_swap (b t1 t2 : list Qc) :
  row_add (row_add b t1) t2 = row_add (row_add b t2) t1.
Proof.
  unfold row_add. revert t1 t2.
  induction b as [|x b IH]; intros [|y t1] [|z t2]; try done.
  cbn [zip_with]. rewrite IH. f_equal. cbn [fadd Qc_arith]. ring.
Qed.

Lemma mean_of_terms_Permutation (K : nat) (n : Z) (terms terms' : list (list Qc)) :
  terms ≡ₚ terms' -> mean_of_terms K n terms = mean_of_terms K n terms'.
Proof.
  intros Hp. unfold mean_of_terms.
  by rewrite (foldl_Permutation row_add terms terms' row_add_swap Hp).
Qed.


End Order.

(** ** Codes and identifiers *)

Section Distinguish.
Context {Id : Type} `{Countable Id}.

(** X17.  [proc_col] keeps apart what is apart: two positions of the
    encoded column hold the same code exactly when the two positions of the
    input hold the same identifier. *)
Theorem proc_col_codes_distinguish (col : list Id) :
  exists name2idx enc n,
    proc_col col = Ok (name2idx, enc, n) /\
    forall i j x y c d,
      col !! i = Some x -> col !! j = Some y ->
      enc !! i = Some c -> enc !! j = Some d ->
      (c = d <-> x = y).
Proof.
  eexists _, _, _. split; [apply proc_col_eq|].
  intros i j x y c d Hx Hy Hc Hd.
  rewrite apply_encoding_lookup, Hx in Hc. rewrite apply_encoding_lookup, Hy in Hd.
  simpl in Hc, Hd. injection Hc as <-. injection Hd as <-.
  assert (x ∈ unique col) as [kx Hkx]%list_elem_of_lookup
    by (apply unique_elem; by eapply list_elem_of_lookup_2).
  assert (y ∈ unique col) as [ky Hky]%list_elem_of_lookup
    by (apply unique_elem; by eapply list_elem_of_lookup_2).
  rewrite (code_of_unique col kx x Hkx), (code_of_unique col ky y Hky).
  split.
  - intros Heq%Nat2Z.inj. subst ky. congruence.
  - intros ->. f_equal.
    by apply (NoDup_lookup (unique col) kx ky y (unique_NoDup col)).
Qed.

End Distinguish.

(** ** The further properties on concrete inputs *)

(** Bounds and lengths of every entry of a concrete list. *)
Ltac entries_ok :=
  repeat first [apply Forall_nil_2 | apply Forall_cons_2; [simpl; lia|]].

Section MoreConcrete.
Import Data MoreData.

Lemma sentinel_frame_wf : wf_frame sentinel_frame.
Proof. repeat split; try reflexivity. apply NoDup_singleton. Defined.

Lemma sentinel_frame_wraps : wrap_indices sentinel_frame emb2 emb2.
Proof. split; entries_ok. Defined.

Lemma sentinel_frame_invalid (U V : list (list float)) :
  ~ valid_indices sentinel_frame U V.
Proof. intros [Hu _]. apply Forall_cons in Hu as [Hu _]. lia. Defined.

Lemma filtered_frame_wf : wf_frame filtered_frame.
Proof. repeat split; try reflexivity. apply NoDup_singleton. Defined.

Lemma filtered_frame_valid : valid_indices filtered_frame emb2 emb2.
Proof. split; entries_ok. Defined.

Lemma raw_frame_wf : wf_frame raw_frame.
Proof.
  repeat split; try reflexivity.
  apply (NoDup_fmap_2 Z.of_nat (seq 0 3)), NoDup_seq.
Defined.

Lemma qframe_wf : wf_frame qframe.
Proof.
  repeat split; try reflexivity.
  apply (NoDup_fmap_2 Z.of_nat (seq 0 2)), NoDup_seq.
Defined.

Lemma qframe_swapped_wf : wf_frame qframe_swapped.
Proof.
  repeat split; try reflexivity.
  apply (NoDup_fmap_2 Z.of_nat (seq 0 2)), NoDup_seq.
Defined.

Lemma qframe_valid : valid_indices qframe qemb qemb.
Proof. split; entries_ok. Defined.

Lemma qemb_rect : rect 2 2 qemb.
Proof. split; [reflexivity|entries_ok]. Defined.

Lemma fit_frame_wf : wf_frame fit_frame.
Proof. repeat split; try reflexivity. apply NoDup_singleton. Defined.

Lemma fit_frame_valid : valid_indices fit_frame (fit_store 0%nat) (fit_store 1%nat).
Proof. split; entries_ok. Defined.

Lemma fit_store_rect (l : nat) : rect 1 2 (fit_store l).
Proof. destruct l; (split; [reflexivity|entries_ok]). Defined.

Lemma fit_frame_fits (u m : Z) (r : Qc) :
  (u, m, r) ∈ observations fit_frame ->
  dot (row_at (fit_store 0%nat) u) (row_at (fit_store 1%nat) m) = r.
Proof.
  intros Hin. change (observations fit_frame) with [(0, 0, q 2)] in Hin.
  apply list_elem_of_singleton in Hin. injection Hin as -> -> ->.
  apply Qc_is_canon. reflexivity.
Defined.





Lemma sparse_multiply_errors_witness :
  sparse_multiply sentinel_frame emb2 emb2 = Raise ValueError.
Proof.
  destruct (sparse_multiply_errors sentinel_frame emb2 emb2 sentinel_frame_wf)
    as [_ Hvalue].
  apply Hvalue; [apply sentinel_frame_wraps|apply sentinel_frame_invalid].
Defined.

Lemma gradient_descent_keeps_shapes_witness :
  exists σ',
    gradient_descent frame2 0%nat 1%nat 2 rate store2 = Ok ((0%nat, 1%nat), σ') /\
    rect 2 2 (σ' 0%nat) /\ rect 2 2 (σ' 1%nat) /\
    valid_indices frame2 (σ' 0%nat) (σ' 1%nat).
Proof.
  apply (gradient_descent_keeps_shapes frame2 0%nat 1%nat 2 rate store2 2 2 2
           frame2_wf eq_refl store2_valid emb2_rect store2_rect).
  discriminate.
Defined.






End MoreConcrete.
